(** * tools/migrate.py: the configuration loader and the migration runner

    A shallow embedding of [src/tools/migrate.py].

    - A Python [str] is the sequence of its code points.  The tests on
      characters ([isspace], line boundaries) are those of [str.strip] and
      [str.splitlines].
    - [os.environ] is a finite map from names to values: [key in os.environ]
      is a lookup and [os.environ[key] = value] an insertion.  Names and
      values the operating system would refuse in a variable (a NUL
      character) are outside the model.
    - Paths of one directory are compared by their last component, as
      [str] values: code point by code point.
    - What the script gets from outside is an input of the model: the text
      of the [.env] file as [read_text] returns it, the entries of the
      migrations directory with what reading each one gives, what
      printing a progress line does on standard output, and the database
      driver, as operations that return or raise.
    - A run of [main] is the value it returns, which [SystemExit] makes the
      exit status of the process, together with the log of what it did in
      order: the lines printed and the calls made, each with its outcome. *)

From stdpp Require Import gmap list sorting strings.

(** * Definitions *)

(** ** Python strings *)

(** A [str] is its sequence of code points. *)
Abbreviation str := (list N).

(** The code points of a literal. *)
Fixpoint py (s : string) : str :=
  match s with
  | EmptyString => []
  | String a s' => Ascii.N_of_ascii a :: py s'
  end.

Arguments py : simpl never.

Definition SQ : N := 39.   (* the apostrophe *)
Definition DQ : N := 34.   (* the double quote *)
Definition EQ : N := 61.   (* the separator = *)
Definition HASH : N := 35. (* the comment mark # *)

Definition in_range (lo hi c : N) : bool := (lo <=? c)%N && (c <=? hi)%N.

(** The characters [str.strip()] removes when called without argument:
    those for which [str.isspace] holds. *)
Definition isspace (c : N) : bool :=
  in_range 9 13 c || in_range 28 32 c || (c =? 133)%N || (c =? 160)%N
  || (c =? 5760)%N || in_range 8192 8202 c || (c =? 8232)%N
  || (c =? 8233)%N || (c =? 8239)%N || (c =? 8287)%N || (c =? 12288)%N.

(** The line boundaries of [str.splitlines()]. *)
Definition islinebreak (c : N) : bool :=
  in_range 10 13 c || in_range 28 30 c || (c =? 133)%N
  || (c =? 8232)%N || (c =? 8233)%N.

Fixpoint lstrip_with (p : N -> bool) (s : str) : str :=
  match s with
  | [] => []
  | c :: s' => if p c then lstrip_with p s' else s
  end.

Definition rstrip_with (p : N -> bool) (s : str) : str :=
  reverse (lstrip_with p (reverse s)).

Definition strip_with (p : N -> bool) (s : str) : str :=
  rstrip_with p (lstrip_with p s).

(** [s.strip()] *)
Definition strip (s : str) : str := strip_with isspace s.

(** [s.strip(chars)] *)
Definition strip_chars (chars : str) (s : str) : str :=
  strip_with (fun c => bool_decide (c ∈ chars)) s.

(** [s.startswith(p)] *)
Fixpoint startswith (s p : str) : bool :=
  match p, s with
  | [], _ => true
  | _ :: _, [] => false
  | a :: p', c :: s' => (c =? a)%N && startswith s' p'
  end.

(** [c in s] for a one-character [c] *)
Definition contains (c : N) (s : str) : bool := existsb (N.eqb c) s.

(** The text before and after the first occurrence of [c]. *)
Fixpoint partition_at (c : N) (s : str) : option (str * str) :=
  match s with
  | [] => None
  | x :: s' =>
      if (x =? c)%N then Some ([], s')
      else match partition_at c s' with
           | Some (k, v) => Some (x :: k, v)
           | None => None
           end
  end.

(** [s.split(c, 1)]: at most one cut, at the first [c]. *)
Definition split1 (c : N) (s : str) : list str :=
  match partition_at c s with
  | Some (k, v) => [k; v]
  | None => [s]
  end.

(** [s.splitlines()]: [cur] is the line being read.  A carriage return
    directly followed by a line feed is one boundary; a boundary at the very
    end of the text opens no further line. *)
Fixpoint splitlines_from (cur : str) (s : str) : list str :=
  match s with
  | [] => match cur with [] => [] | _ => [cur] end
  | c :: s' =>
      if (c =? 13)%N then
        match s' with
        | 10%N :: s'' => cur :: splitlines_from [] s''
        | _ => cur :: splitlines_from [] s'
        end
      else if islinebreak c then cur :: splitlines_from [] s'
      else splitlines_from (cur ++ [c]) s'
  end.

Definition splitlines (s : str) : list str := splitlines_from [] s.

(** ** The configuration loader *)

(** The value expression of [load_dotenv]: [value.strip()], on whose result
    [strip] is called with the apostrophe, on whose result [strip] is called
    with the double quote. *)
Definition clean_value (value : str) : str :=
  strip_chars [DQ] (strip_chars [SQ] (strip value)).

(** One pass of the loop body of [load_dotenv] over [line].  The last
    branch of the [match] stands for the failing tuple assignment; the guard
    before it makes it unreachable (lemma [split1_contains]). *)
Definition load_line (environ : gmap str str) (line : str) : gmap str str :=
  let raw := strip line in
  if bool_decide (raw = []) || startswith raw [HASH] || negb (contains EQ raw)
  then environ
  else
    match split1 EQ raw with
    | [key; value] =>
        let key := strip key in
        let value := clean_value value in
        if negb (bool_decide (key = [])) && bool_decide (environ !! key = None)
        then <[key := value]> environ
        else environ
    | _ => environ
    end.

(** [load_dotenv]: [file] is [None] when [dotenv_path.is_file()] is false
    and otherwise holds the text [read_text] returns. *)
Definition load_dotenv (file : option str) (environ : gmap str str)
  : gmap str str :=
  match file with
  | None => environ
  | Some text => fold_left load_line (splitlines text) environ
  end.

(** ** The value rule as the specification words it *)

Definition isquote (c : N) : bool := (c =? SQ)%N || (c =? DQ)%N.

(** The value rule in the words of the specification: a value wrapped in
    one matching pair of quote characters loses that pair, any other value
    is kept as it is. *)
Definition spec_unquote (v : str) : str :=
  match v with
  | [] => []
  | q :: rest =>
      match last rest with
      | Some q' => if isquote q && (q =? q')%N then removelast rest else v
      | None => v
      end
  end.

(** ** The outside world of the runner *)

(** An exception is represented by the text [str(exc)] gives for it.  The
    exceptions of the model are the instances of [Exception], the class
    the handler of [main] names; that is what file reads and the database
    driver raise. *)
Inductive exn := Exception (msg : str).

Definition exn_msg (e : exn) : str := match e with Exception m => m end.

(** What a call did: it returned, or it raised. *)
Inductive outcome := Returned | Raised (e : exn).

(** The calls of the [try] block that may raise. *)
Inductive call :=
| Connect (url : str)     (* psycopg.connect(database_url) *)
| Cursor                  (* conn.cursor() *)
| ReadText (file : str)   (* path.read_text(encoding=utf-8), by file name *)
| PrintOut (line : str)   (* print(line) of the loop, when it raises *)
| Execute (sql : str)     (* cur.execute(sql) *)
| Commit.                 (* conn.commit() *)

(** The log of a run.  [Print] is a line that was written; a [print] of
    the loop that raises instead is the call [PrintOut] with its exception,
    and writes nothing.  [ExitCursor] and [ExitConn] mark the end of the two
    [with] blocks; their flag tells whether the block is left by an
    exception.  The driver's scope exits release their resource and pass on
    an exception in flight: they neither raise nor swallow one, so they
    appear in the log and do not change the result of the block. *)
Inductive event :=
| Print (line : str)
| Call (c : call) (o : outcome)
| ExitCursor (exc : bool)
| ExitConn (exc : bool).

(** The database driver is not part of the repository: it is a parameter.
    [conn] is the state of the session and of the database behind it; each
    operation either raises or returns the next state. *)
Record driver := Driver {
  conn : Type;
  connect : str -> exn + conn;
  cursor : conn -> exn + conn;
  execute : str -> conn -> exn + conn;
  commit : conn -> exn + conn
}.

(** An entry of the migrations directory: its [name], and what
    [read_text] does on it. *)
Record entry := Entry {
  name : str;
  read_text : exn + str
}.

(** [print_raises] is standard output as the loop of [main] meets it: the
    exception [print] raises on a progress line, for one that cannot be
    written (a file name the stream cannot encode), and [None] for a line
    that is written.  The loop runs inside the [try] block, so the handler
    of [main] catches that exception.  The other lines of [main] are
    printed before the block, in its handler and after it, where no handler
    stands around [print]; they are taken as written. *)
Record world := World {
  environ : gmap str str;            (* os.environ when the script starts *)
  dotenv : option str;               (* the .env file, see load_dotenv *)
  migrations_dir : str;              (* str(migrations_dir) *)
  migrations : option (list entry);  (* None when is_dir() is false, else
                                        the entries as the directory yields
                                        them *)
  print_raises : str -> option exn;
  db : driver
}.

(** ** Discovery: glob and sorted *)

(** [s.endswith(p)] *)
Definition endswith (s p : str) : bool := startswith (reverse s) (reverse p).

(** [migrations_dir.glob(PATTERN)] for the pattern star-dot-sql: the entries
    whose name ends in dot-sql, in directory order. *)
Definition glob_sql (listing : list entry) : list entry :=
  List.filter (fun e => endswith (name e) (py ".sql")) listing.

(** [a < b] on [str]: lexicographic on code points, a proper prefix first. *)
Fixpoint str_ltb (a b : str) : bool :=
  match a, b with
  | _, [] => false
  | [], _ :: _ => true
  | x :: a', y :: b' => (x <? y)%N || ((x =? y)%N && str_ltb a' b')
  end.

(** Paths of one directory compare as their names do. *)
Definition path_ltb (p q : entry) : bool := str_ltb (name p) (name q).

(** [sorted]: the builtin is a stable sort that only asks [<]; it is
    modelled by stable insertion. *)
Fixpoint insert_sorted {A} (lt : A -> A -> bool) (x : A) (l : list A) : list A :=
  match l with
  | [] => [x]
  | y :: l' => if lt y x then y :: insert_sorted lt x l' else x :: y :: l'
  end.

Fixpoint sorted {A} (lt : A -> A -> bool) (l : list A) : list A :=
  match l with
  | [] => []
  | x :: l' => insert_sorted lt x (sorted lt l')
  end.

(** ** The run: a log together with a result or an exception *)

Definition M (A : Type) : Type := (list event * (exn + A))%type.

Definition ret {A} (a : A) : M A := ([], inr a).

Definition bind {A B} (m : M A) (f : A -> M B) : M B :=
  match m with
  | (t, inl e) => (t, inl e)
  | (t, inr a) => let '(t', r) := f a in (t ++ t', r)
  end.

Notation "x <- m ;; k" := (bind m (fun x => k))
  (at level 100, m at next level, right associativity).

(** [print(line)] inside the [try] block: the line is written, or the
    call raises. *)
Definition print (raises_on : str -> option exn) (line : str) : M unit :=
  match raises_on line with
  | None => ([Print line], inr tt)
  | Some e => ([Call (PrintOut line) (Raised e)], inl e)
  end.

(** A call that may raise, logged with its outcome. *)
Definition do_call {A} (c : call) (r : exn + A) : M A :=
  ([Call c (match r with inl e => Raised e | inr _ => Returned end)], r).

(** The body of a [with] statement, followed by the scope's exit. *)
Definition with_scope {A} (exit : bool -> event) (body : M A) : M A :=
  let '(t, r) := body in
  (t ++ [exit (match r with inl _ => true | inr _ => false end)], r).

(** The [for] loop of [main]. *)
Fixpoint run_files (d : driver) (raises_on : str -> option exn)
    (files : list entry) (c : conn d) : M (conn d) :=
  match files with
  | [] => ret c
  | path :: rest =>
      sql <- do_call (ReadText (name path)) (read_text path) ;;
      _ <- print raises_on (py "Running " ++ name path ++ py "...") ;;
      c' <- do_call (Execute sql) (execute d sql c) ;;
      run_files d raises_on rest c'
  end.

(** The [try] block of [main]. *)
Definition try_block (d : driver) (raises_on : str -> option exn)
    (database_url : str) (files : list entry) : M unit :=
  c <- do_call (Connect database_url) (connect d database_url) ;;
  with_scope ExitConn
    (c1 <- do_call Cursor (cursor d c) ;;
     c2 <- with_scope ExitCursor (run_files d raises_on files c1) ;;
     _ <- do_call Commit (commit d c2) ;;
     ret tt).

Definition DATABASE_URL : str := py "DATABASE_URL".

(** [os.getenv] *)
Definition getenv (env : gmap str str) (key : str) : option str := env !! key.

(** [not x] for [x] that is [None] or a [str]. *)
Definition falsy (x : option str) : bool :=
  match x with
  | None | Some [] => true
  | Some (_ :: _) => false
  end.

(** [main]: the log of the run and the value returned, which is the exit
    status of the process. *)
Definition main (w : world) : list event * Z :=
  let env := load_dotenv (dotenv w) (environ w) in
  let database_url := getenv env DATABASE_URL in
  if falsy database_url then ([Print (py "DATABASE_URL is not set.")], 1%Z)
  else
    match migrations w with
    | None =>
        ([Print (py "migrations directory not found: " ++ migrations_dir w)], 1%Z)
    | Some listing =>
        let files := sorted path_ltb (glob_sql listing) in
        match files with
        | [] => ([Print (py "No migration files found.")], 1%Z)
        | _ :: _ =>
            match try_block (db w) (print_raises w)
                    (default [] database_url) files with
            | (t, inl exc) =>
                (t ++ [Print (py "Migration failed: " ++ exn_msg exc)], 1%Z)
            | (t, inr _) => (t ++ [Print (py "Migrations applied.")], 0%Z)
            end
        end
    end.

(** ** Reading the log *)

(** The progress line of a file. *)
Definition running (file : str) : str := py "Running " ++ file ++ py "...".

Definition raises (t : list event) : list exn :=
  omap (fun ev => match ev with Call _ (Raised e) => Some e | _ => None end) t.

Definition prints (t : list event) : list str :=
  omap (fun ev => match ev with Print l => Some l | _ => None end) t.

(** Connection attempts, by connection string. *)
Definition connects (t : list event) : list str :=
  omap (fun ev => match ev with Call (Connect u) _ => Some u | _ => None end) t.

(** Files whose text was asked for, by name. *)
Definition reads (t : list event) : list str :=
  omap (fun ev => match ev with Call (ReadText n) _ => Some n | _ => None end) t.

(** Statements sent, with what became of each. *)
Definition executes (t : list event) : list (str * outcome) :=
  omap (fun ev => match ev with
                  | Call (Execute q) o => Some (q, o) | _ => None end) t.

(** Calls of [conn.commit()], with what became of each. *)
Definition commits (t : list event) : list outcome :=
  omap (fun ev => match ev with Call Commit o => Some o | _ => None end) t.

(** Reads that raised, by file name. *)
Definition failed_reads (t : list event) : list (str * exn) :=
  omap (fun ev => match ev with
                  | Call (ReadText n) (Raised e) => Some (n, e)
                  | _ => None end) t.

(** The texts of the files that can be read, in the order of the files. *)
Definition texts (fs : list entry) : list str :=
  omap (fun f => match read_text f with inr q => Some q | inl _ => None end) fs.

(** The three steps of the loop body on a file that is read and executed
    without an exception. *)
Definition file_done (f : entry) (sql : str) : list event :=
  [ Call (ReadText (name f)) Returned;
    Print (running (name f));
    Call (Execute sql) Returned ].

(** The log of the loop over files whose texts are [sqls], none failing. *)
Fixpoint files_done (fs : list entry) (sqls : list str) : list event :=
  match fs, sqls with
  | f :: fs', sql :: sqls' => file_done f sql ++ files_done fs' sqls'
  | _, _ => []
  end.

(** ** The shapes of a run *)

(** The shapes the log of the [try] block can take, with its result. *)
Inductive try_shape (url : str) (fs : list entry)
  : list event -> exn + unit -> Prop :=
| connect_raised e :
    try_shape url fs [Call (Connect url) (Raised e)] (inl e)
| cursor_raised e :
    try_shape url fs
      [Call (Connect url) Returned; Call Cursor (Raised e); ExitConn true]
      (inl e)
| read_raised e before f after sqls :
    fs = before ++ f :: after ->
    map read_text before = map inr sqls ->
    read_text f = inl e ->
    try_shape url fs
      ([Call (Connect url) Returned; Call Cursor Returned]
         ++ files_done before sqls
         ++ [Call (ReadText (name f)) (Raised e);
             ExitCursor true; ExitConn true])
      (inl e)
| print_raised e before f after sqls sql :
    fs = before ++ f :: after ->
    map read_text before = map inr sqls ->
    read_text f = inr sql ->
    try_shape url fs
      ([Call (Connect url) Returned; Call Cursor Returned]
         ++ files_done before sqls
         ++ [Call (ReadText (name f)) Returned;
             Call (PrintOut (running (name f))) (Raised e);
             ExitCursor true; ExitConn true])
      (inl e)
| execute_raised e before f after sqls sql :
    fs = before ++ f :: after ->
    map read_text before = map inr sqls ->
    read_text f = inr sql ->
    try_shape url fs
      ([Call (Connect url) Returned; Call Cursor Returned]
         ++ files_done before sqls
         ++ [Call (ReadText (name f)) Returned; Print (running (name f));
             Call (Execute sql) (Raised e);
             ExitCursor true; ExitConn true])
      (inl e)
| commit_raised e sqls :
    map read_text fs = map inr sqls ->
    try_shape url fs
      ([Call (Connect url) Returned; Call Cursor Returned]
         ++ files_done fs sqls
         ++ [ExitCursor false; Call Commit (Raised e); ExitConn true])
      (inl e)
| all_returned sqls :
    map read_text fs = map inr sqls ->
    try_shape url fs
      ([Call (Connect url) Returned; Call Cursor Returned]
         ++ files_done fs sqls
         ++ [ExitCursor false; Call Commit Returned; ExitConn false])
      (inr tt).

(** The ways a run of [main] ends. *)
Inductive main_shape (w : world) : list event * Z -> Prop :=
| no_database_url :
    falsy (getenv (load_dotenv (dotenv w) (environ w)) DATABASE_URL) = true ->
    main_shape w ([Print (py "DATABASE_URL is not set.")], 1%Z)
| no_directory url :
    getenv (load_dotenv (dotenv w) (environ w)) DATABASE_URL = Some url ->
    url <> [] ->
    migrations w = None ->
    main_shape w
      ([Print (py "migrations directory not found: " ++ migrations_dir w)], 1%Z)
| no_files url listing :
    getenv (load_dotenv (dotenv w) (environ w)) DATABASE_URL = Some url ->
    url <> [] ->
    migrations w = Some listing ->
    sorted path_ltb (glob_sql listing) = [] ->
    main_shape w ([Print (py "No migration files found.")], 1%Z)
| failed url listing t exc :
    getenv (load_dotenv (dotenv w) (environ w)) DATABASE_URL = Some url ->
    url <> [] ->
    migrations w = Some listing ->
    sorted path_ltb (glob_sql listing) <> [] ->
    try_shape url (sorted path_ltb (glob_sql listing)) t (inl exc) ->
    main_shape w
      (t ++ [Print (py "Migration failed: " ++ exn_msg exc)], 1%Z)
| applied url listing t :
    getenv (load_dotenv (dotenv w) (environ w)) DATABASE_URL = Some url ->
    url <> [] ->
    migrations w = Some listing ->
    sorted path_ltb (glob_sql listing) <> [] ->
    try_shape url (sorted path_ltb (glob_sql listing)) t (inr tt) ->
    main_shape w (t ++ [Print (py "Migrations applied.")], 0%Z).

(** ** The order on names *)

(** [a <= b] on [str], as [not (b < a)]. *)
Definition str_le (a b : str) : Prop := str_ltb b a = false.

(** ** Worlds to run the model on *)

(** A small driver: the session state is the list
    of statements executed so far, the statement [bad] is rejected, and
    [commit_ok] tells whether commit goes through. *)
Definition toy_driver (bad : str) (commit_ok : bool) : driver :=
  {| conn := list str;
     connect := fun url =>
       if bool_decide (url = py "refuse") then inl (Exception (py "connection refused"))
       else inr [];
     cursor := fun c => inr c;
     execute := fun sql c =>
       if bool_decide (sql = bad) then inl (Exception (py "syntax error"))
       else inr (c ++ [sql]);
     commit := fun c =>
       if commit_ok then inr c else inl (Exception (py "commit failed")) |}.

Definition two_files : list entry :=
  [ Entry (py "002_add_index.sql") (inr (py "CREATE INDEX i"));
    Entry (py "notes.txt") (inr (py "hello"));
    Entry (py "001_init.sql") (inr (py "CREATE TABLE t")) ].

Definition toy_world (env : gmap str str) (file : option str)
    (dir : option (list entry)) (bad : str) (commit_ok : bool) : world :=
  {| environ := env; dotenv := file; migrations_dir := py "/app/migrations";
     migrations := dir; print_raises := fun _ => None;
     db := toy_driver bad commit_ok |}.

(** A standard output that encodes strictly: a line holding a surrogate
    code point cannot be written. *)
Definition strict_stdout (line : str) : option exn :=
  if existsb (in_range 55296 57343) line
  then Some (Exception (py "surrogates not allowed"))
  else None.

(** A directory whose one file has a name with a surrogate in it, and the
    world of [toy_world] with the strict standard output. *)
Definition surrogate_files : list entry :=
  [ Entry (py "001_" ++ [56575%N] ++ py ".sql") (inr (py "CREATE TABLE t")) ].

Definition strict_world (dir : option (list entry)) : world :=
  {| environ := ∅; dotenv := Some (py "DATABASE_URL=postgres://db");
     migrations_dir := py "/app/migrations"; migrations := dir;
     print_raises := strict_stdout; db := toy_driver (py "DROP") true |}.

(** A directory with a file that cannot be read. *)
Definition unreadable_files : list entry :=
  [ Entry (py "002_add_index.sql") (inl (Exception (py "Permission denied")));
    Entry (py "001_init.sql") (inr (py "CREATE TABLE t")) ].

(** ** What a file offers *)

(** The entry a line offers to the environment: the key and the value the
    loop body of [load_dotenv] computes for it, when the line passes the
    guard and its key is not empty.  Whether the entry is stored is up to
    the environment ([load_line_entry]). *)
Definition line_entry (line : str) : option (str * str) :=
  let raw := strip line in
  if bool_decide (raw = []) || startswith raw [HASH] || negb (contains EQ raw)
  then None
  else
    match split1 EQ raw with
    | [key; value] =>
        let key := strip key in
        if bool_decide (key = []) then None else Some (key, clean_value value)
    | _ => None
    end.

(** The entries of a file, in the order of its lines. *)
Definition dotenv_entries (file : option str) : list (str * str) :=
  match file with
  | None => []
  | Some text => omap line_entry (splitlines text)
  end.

(** The value of the first entry for [key]. *)
Fixpoint first_value (key : str) (entries : list (str * str)) : option str :=
  match entries with
  | [] => None
  | (k, v) :: rest =>
      if bool_decide (k = key) then Some v else first_value key rest
  end.

(** ** The scope exits of a log *)

(** How the connection scope was left, each time it was: [true] when by an
    exception. *)
Definition conn_exits (t : list event) : list bool :=
  omap (fun ev => match ev with ExitConn b => Some b | _ => None end) t.

(** How the cursor scope was left, each time it was. *)
Definition cursor_exits (t : list event) : list bool :=
  omap (fun ev => match ev with ExitCursor b => Some b | _ => None end) t.

(** * Theorems *)

(** ** The model on the scenarios of the specification *)

Example splitlines_ex :
  splitlines (py "A=1" ++ [13; 10] ++ py "B=2" ++ [10; 10] ++ py "C" ++ [10])%N
  = [py "A=1"; py "B=2"; []; py "C"].
Proof. reflexivity. Qed.

Example load_ex :
  load_dotenv
    (Some (py "  A = 'x y'  " ++ [10] ++ py "#B=1" ++ [10] ++ py "A=2" ++ [10]
           ++ py "C=" ++ [DQ] ++ py "z" ++ [DQ])%N)
    ∅
  = <[py "C" := py "z"]> (<[py "A" := py "x y"]> ∅).
Proof. vm_compute. reflexivity. Qed.

Example clean_value_ex :
  clean_value (py "  'x y' ") = py "x y"
  /\ clean_value ([DQ] ++ py " x " ++ [DQ]) = py " x "
  /\ clean_value ([DQ] ++ py "'x'" ++ [DQ]) = py "'x'"
  /\ clean_value (py "'" ++ [DQ] ++ py "x" ++ [DQ] ++ py "'") = py "x"
  /\ clean_value (py "it's") = py "it's".
Proof. repeat split; reflexivity. Qed.

Example spec_unquote_ex :
  spec_unquote (py "'x y'") = py "x y"
  /\ spec_unquote ([DQ] ++ py "'x'" ++ [DQ]) = py "'x'"
  /\ spec_unquote (py "'x" ++ [DQ]) = py "'x" ++ [DQ]
  /\ spec_unquote (py "it's") = py "it's".
Proof. repeat split; reflexivity. Qed.

Example scenario_1 :
  main (toy_world ∅ (Some (py "DATABASE_URL=postgres://db")) (Some two_files)
          (py "DROP") true)
  = ([ Call (Connect (py "postgres://db")) Returned;
       Call Cursor Returned;
       Call (ReadText (py "001_init.sql")) Returned;
       Print (py "Running 001_init.sql...");
       Call (Execute (py "CREATE TABLE t")) Returned;
       Call (ReadText (py "002_add_index.sql")) Returned;
       Print (py "Running 002_add_index.sql...");
       Call (Execute (py "CREATE INDEX i")) Returned;
       ExitCursor false;
       Call Commit Returned;
       ExitConn false;
       Print (py "Migrations applied.") ], 0%Z).
Proof. vm_compute. reflexivity. Qed.

Example scenario_5 :
  main (toy_world ∅ (Some (py "DATABASE_URL=postgres://db")) (Some two_files)
          (py "CREATE INDEX i") true)
  = ([ Call (Connect (py "postgres://db")) Returned;
       Call Cursor Returned;
       Call (ReadText (py "001_init.sql")) Returned;
       Print (py "Running 001_init.sql...");
       Call (Execute (py "CREATE TABLE t")) Returned;
       Call (ReadText (py "002_add_index.sql")) Returned;
       Print (py "Running 002_add_index.sql...");
       Call (Execute (py "CREATE INDEX i")) (Raised (Exception (py "syntax error")));
       ExitCursor true;
       ExitConn true;
       Print (py "Migration failed: syntax error") ], 1%Z).
Proof. vm_compute. reflexivity. Qed.

(** A progress line that cannot be written: the file is read, the print
    raises inside the [try] block, nothing is sent or committed, and the
    handler reports the exception. *)
Example scenario_print_raises :
  main (strict_world (Some surrogate_files))
  = ([ Call (Connect (py "postgres://db")) Returned;
       Call Cursor Returned;
       Call (ReadText (py "001_" ++ [56575%N] ++ py ".sql")) Returned;
       Call (PrintOut (running (py "001_" ++ [56575%N] ++ py ".sql")))
         (Raised (Exception (py "surrogates not allowed")));
       ExitCursor true;
       ExitConn true;
       Print (py "Migration failed: surrogates not allowed") ], 1%Z).
Proof. vm_compute. reflexivity. Qed.

(** ** Stripping *)

Section strip_lemmas.
Variable p : N -> bool.

Lemma lstrip_with_all (pre s : str) :
  Forall (fun c => p c = true) pre ->
  lstrip_with p (pre ++ s) = lstrip_with p s.
Proof.
  induction 1 as [|c pre Hc _ IH]; simpl; [done|]. by rewrite Hc.
Qed.

Lemma lstrip_with_head (s : str) :
  (forall c, head s = Some c -> p c = false) -> lstrip_with p s = s.
Proof.
  destruct s as [|c s]; simpl; [done|]. intros H. by rewrite (H c).
Qed.

Lemma lstrip_with_suffix (s : str) : lstrip_with p s `suffix_of` s.
Proof.
  induction s as [|c s IH]; simpl; [done|].
  destruct (p c); [by apply suffix_cons_r | done].
Qed.

(** What [strip] computes: between a run of stripped characters at each
    end, a middle part that starts and ends with a character that stays. *)
Lemma strip_with_middle (pre mid post : str) :
  Forall (fun c => p c = true) pre ->
  Forall (fun c => p c = true) post ->
  (forall c, head mid = Some c -> p c = false) ->
  (forall c, last mid = Some c -> p c = false) ->
  strip_with p (pre ++ mid ++ post) = mid.
Proof.
  intros Hpre Hpost Hh Hl. unfold strip_with, rstrip_with.
  rewrite lstrip_with_all by done.
  destruct mid as [|c mid].
  - simpl. rewrite <- (app_nil_r post), lstrip_with_all by done. done.
  - rewrite <- app_comm_cons. simpl lstrip_with. rewrite (Hh c) by done.
    rewrite app_comm_cons, reverse_app, lstrip_with_all
      by (by apply Forall_reverse).
    rewrite lstrip_with_head; [by rewrite reverse_involutive|].
    intros c'. rewrite head_reverse. apply Hl.
Qed.

Lemma strip_with_id (s : str) :
  (forall c, head s = Some c -> p c = false) ->
  (forall c, last s = Some c -> p c = false) ->
  strip_with p s = s.
Proof.
  intros Hh Hl.
  by rewrite <- (strip_with_middle [] s []) at 2; rewrite ?app_nil_r.
Qed.

Lemma strip_with_sublist c (s : str) : c ∈ strip_with p s -> c ∈ s.
Proof.
  unfold strip_with, rstrip_with. rewrite elem_of_reverse. intros H.
  eapply elem_of_suffix in H; [|apply lstrip_with_suffix].
  rewrite elem_of_reverse in H.
  eapply elem_of_suffix; [exact H | apply lstrip_with_suffix].
Qed.
End strip_lemmas.

(** ** The loader, line by line *)

Lemma contains_elem_of c (s : str) : contains c s = true <-> c ∈ s.
Proof.
  unfold contains. rewrite existsb_exists. split.
  - intros (x & Hx & Heq). apply N.eqb_eq in Heq as ->.
    by apply list_elem_of_In.
  - intros H. exists c. split; [by apply list_elem_of_In | apply N.eqb_refl].
Qed.

Lemma partition_at_contains c (s : str) :
  contains c s = true <-> is_Some (partition_at c s).
Proof.
  unfold contains. induction s as [|x s IH]; simpl.
  - split; [done | by intros [? ?]].
  - rewrite (N.eqb_sym c x). destruct (x =? c)%N; simpl.
    + split; [intros _; by eexists | done].
    + rewrite IH. destruct (partition_at c s) as [[k v]|].
      * split; intros _; by eexists.
      * split; by intros [? ?].
Qed.

(** The guard of the loop body leaves the tuple assignment two parts. *)
Lemma split1_contains c (s : str) :
  contains c s = true -> exists k v, split1 c s = [k; v].
Proof.
  intros [[k v] H]%partition_at_contains. exists k, v.
  unfold split1. by rewrite H.
Qed.

Lemma partition_at_app c (s k v : str) :
  partition_at c s = Some (k, v) -> s = k ++ c :: v /\ c ∉ k.
Proof.
  revert k v. induction s as [|x s IH]; simpl; intros k v; [done|].
  destruct (x =? c)%N eqn:E.
  - apply N.eqb_eq in E as ->. intros [= <- <-]. split; [done|].
    apply not_elem_of_nil.
  - apply N.eqb_neq in E. destruct (partition_at c s) as [[k' v']|]; [|done].
    intros [= <- <-]. destruct (IH _ _ eq_refl) as [-> Hk]. split; [done|].
    apply not_elem_of_cons. split; [congruence | done].
Qed.

(** A line either leaves the environment alone or adds one key that was
    absent. *)
Lemma load_line_cases (env : gmap str str) line :
  load_line env line = env
  \/ exists k v, env !! k = None /\ load_line env line = <[k := v]> env.
Proof.
  unfold load_line.
  destruct (_ || _ || _); [by left|].
  destruct (split1 EQ (strip line)) as [|k [|v [|? ?]]]; try by left.
  destruct (negb _ && _) eqn:E; [|by left].
  apply andb_true_iff in E as [_ E%bool_decide_eq_true]. right. eauto.
Qed.

Lemma load_line_lookup_Some (env : gmap str str) line k v :
  env !! k = Some v -> load_line env line !! k = Some v.
Proof.
  intros H. destruct (load_line_cases env line) as [->|(k' & v' & Hk' & ->)];
    [done|].
  rewrite lookup_insert_ne; [done|]. congruence.
Qed.

Lemma load_lines_lookup_Some (ls : list str) (env : gmap str str) k v :
  env !! k = Some v -> fold_left load_line ls env !! k = Some v.
Proof.
  revert env. induction ls as [|line ls IH]; simpl; intros env H;
    [done|].
  by apply IH, load_line_lookup_Some.
Qed.

(** A line that passes the guard, with a key that is not empty and not yet
    set, stores the cleaned value under the trimmed key. *)
Lemma load_line_sets (env : gmap str str) line k v :
  partition_at EQ (strip line) = Some (k, v) ->
  startswith (strip line) [HASH] = false ->
  strip k <> [] ->
  env !! strip k = None ->
  load_line env line = <[strip k := clean_value v]> env.
Proof.
  intros Hp Hh Hk Hn. unfold load_line, split1. rewrite Hp, Hh.
  assert (contains EQ (strip line) = true) as ->
    by (apply partition_at_contains; eauto).
  assert (strip line <> []) by (intros E; by rewrite E in Hp).
  rewrite bool_decide_eq_false_2 by done. simpl.
  rewrite bool_decide_eq_false_2 by done.
  by rewrite bool_decide_eq_true_2 by done.
Qed.

Lemma load_line_skips (env : gmap str str) line :
  strip line = [] \/ startswith (strip line) [HASH] = true
  \/ contains EQ line = false ->
  load_line env line = env.
Proof.
  intros H. unfold load_line.
  destruct H as [H|[H|H]].
  - by rewrite H.
  - rewrite H. by rewrite orb_true_r.
  - assert (contains EQ (strip line) = false) as ->; [|by rewrite orb_true_r].
    apply not_true_is_false. intros Hc%contains_elem_of.
    apply strip_with_sublist, contains_elem_of in Hc. congruence.
Qed.

(** ** Quote characters at the ends of a value *)

Lemma strip_one_char (q c : N) : bool_decide (c ∈ [q]) = (c =? q)%N.
Proof.
  destruct (c =? q)%N eqn:E.
  - apply N.eqb_eq in E as ->. apply bool_decide_eq_true_2, list_elem_of_here.
  - apply N.eqb_neq in E. apply bool_decide_eq_false_2.
    by intros ->%list_elem_of_singleton.
Qed.

Lemma last_wrapped (q : N) (inner : str) : last (q :: inner ++ [q]) = Some q.
Proof. by rewrite app_comm_cons, last_snoc. Qed.

(** A pair of double quotes around [inner] is what is removed when [inner]
    has no further double quote at either end. *)
Lemma clean_value_double (v inner : str) :
  strip v = DQ :: inner ++ [DQ] ->
  head inner <> Some DQ -> last inner <> Some DQ ->
  clean_value v = inner.
Proof.
  intros Hv Hh Hl. unfold clean_value, strip_chars. rewrite Hv.
  rewrite (strip_with_id _ (DQ :: inner ++ [DQ])).
  - apply (strip_with_middle _ [DQ] inner [DQ]).
    + by repeat constructor.
    + by repeat constructor.
    + intros c Hc. rewrite strip_one_char. apply N.eqb_neq. congruence.
    + intros c Hc. rewrite strip_one_char. apply N.eqb_neq. congruence.
  - by intros c [= <-].
  - intros c. rewrite last_wrapped. by intros [= <-].
Qed.

(** A pair of apostrophes around [inner] is what is removed when [inner] has
    no quote character of either kind at either end. *)
Lemma clean_value_single (v inner : str) :
  strip v = SQ :: inner ++ [SQ] ->
  (forall c, head inner = Some c \/ last inner = Some c -> isquote c = false) ->
  clean_value v = inner.
Proof.
  intros Hv Hq. unfold clean_value, strip_chars. rewrite Hv.
  assert (forall c q, isquote c = false -> (q = SQ \/ q = DQ) ->
                      bool_decide (c ∈ [q]) = false) as Hno.
  { intros c q [H1 H2]%orb_false_elim Hcq. rewrite strip_one_char.
    by destruct Hcq as [-> | ->]. }
  rewrite (strip_with_middle _ [SQ] inner [SQ]); try by repeat constructor.
  - apply strip_with_id; intros c Hc; apply Hno; auto.
  - intros c Hc; apply Hno; auto.
  - intros c Hc; apply Hno; auto.
Qed.

(** A value with no quote character at either end is only trimmed. *)
Lemma clean_value_plain (v : str) :
  (forall c, head (strip v) = Some c \/ last (strip v) = Some c ->
             isquote c = false) ->
  clean_value v = strip v.
Proof.
  intros Hq. unfold clean_value, strip_chars.
  assert (forall c q, isquote c = false -> (q = SQ \/ q = DQ) ->
                      bool_decide (c ∈ [q]) = false) as Hno.
  { intros c q [H1 H2]%orb_false_elim Hcq. rewrite strip_one_char.
    by destruct Hcq as [-> | ->]. }
  rewrite (strip_with_id _ (strip v)); [|intros c Hc; apply Hno; auto..].
  apply strip_with_id; intros c Hc; apply Hno; auto.
Qed.

(** ** The loader: what a line stores, skips and keeps *)

(** C1 (as amended).  A line that sets a variable stores
    [clean_value] of the text after the separator: the trimmed value with
    every apostrophe at either end removed and then every double quote at
    either end removed.  When the trimmed value is a pair of double quotes
    around a text with no double quote at either end, or a pair of
    apostrophes around a text with no quote character at either end,
    exactly that pair is removed; when the trimmed value has no quote
    character at either end it is stored as it is. *)
Theorem load_line_value_quotes (env : gmap str str) (line k v : str) :
  partition_at EQ (strip line) = Some (k, v) ->
  startswith (strip line) [HASH] = false ->
  strip k <> [] ->
  env !! strip k = None ->
  load_line env line !! strip k = Some (clean_value v)
  /\ (forall inner, strip v = DQ :: inner ++ [DQ] ->
        head inner <> Some DQ -> last inner <> Some DQ ->
        clean_value v = inner)
  /\ (forall inner, strip v = SQ :: inner ++ [SQ] ->
        (forall c, head inner = Some c \/ last inner = Some c ->
                   isquote c = false) ->
        clean_value v = inner)
  /\ ((forall c, head (strip v) = Some c \/ last (strip v) = Some c ->
                 isquote c = false) ->
      clean_value v = strip v).
Proof.
  intros Hp Hh Hk Hn. split; [|split; [|split]].
  - rewrite (load_line_sets env line k v) by done. apply lookup_insert_eq.
  - apply clean_value_double.
  - apply clean_value_single.
  - apply clean_value_plain.
Qed.

Lemma load_line_value_quotes_witness :
  load_line ∅ (py " A = 'x y' ") !! py "A" = Some (py "x y").
Proof.
  assert (partition_at EQ (strip (py " A = 'x y' "))
          = Some (py "A ", py " 'x y'")) as Hp by reflexivity.
  assert (startswith (strip (py " A = 'x y' ")) [HASH] = false) as Hh
    by reflexivity.
  assert (strip (py "A ") <> []) as Hk by (vm_compute; discriminate).
  assert ((∅ : gmap str str) !! strip (py "A ") = None) as Hn
    by reflexivity.
  destruct (load_line_value_quotes ∅ _ _ _ Hp Hh Hk Hn) as (Hs & _ & Hq & _).
  rewrite (Hq (py "x y")) in Hs.
  - exact Hs.
  - reflexivity.
  - intros c [[= <-]|[= <-]]; reflexivity.
Defined.

(** C1, as stated, fails: a value with a quote character at one end only is
    not wrapped in a pair, yet its quote is removed; and of two pairs around
    a value both are removed, not exactly one. *)
Lemma spec_unquote_counterexample :
  let unmatched := DQ :: py "abc" in
  let twice := [DQ; DQ] ++ py "abc" ++ [DQ; DQ] in
  spec_unquote (strip unmatched) = unmatched
  /\ load_line ∅ (py "A=" ++ unmatched) !! py "A" = Some (py "abc")
  /\ spec_unquote (strip twice) = [DQ] ++ py "abc" ++ [DQ]
  /\ load_line ∅ (py "A=" ++ twice) !! py "A" = Some (py "abc")
  /\ ~ (forall v, clean_value v = spec_unquote (strip v)).
Proof.
  simpl. repeat split; try reflexivity.
  intros H. specialize (H (DQ :: py "abc")). vm_compute in H. discriminate.
Qed.

(** C8.  A line that is blank after trimming, or starts with the comment
    mark after trimming, or holds no separator, contributes nothing: the
    loop body leaves every variable as it was, and the file loads as it
    would without that line. *)
Theorem skipped_line_no_entry (line : str) :
  strip line = [] \/ startswith (strip line) [HASH] = true
  \/ contains EQ line = false ->
  (forall env : gmap str str, load_line env line = env)
  /\ (forall (before after : list str) (env : gmap str str),
        fold_left load_line (before ++ line :: after) env
        = fold_left load_line (before ++ after) env).
Proof.
  intros H. split.
  - intros env. by apply load_line_skips.
  - intros before after env. rewrite !fold_left_app. simpl.
    by rewrite load_line_skips.
Qed.

Lemma skipped_line_no_entry_witness :
  load_dotenv (Some (py "A=1" ++ [10%N] ++ py "  # B=2 " ++ [10%N] ++ py "C=3"))
    ∅
  = load_dotenv (Some (py "A=1" ++ [10%N] ++ py "C=3")) ∅.
Proof.
  assert (strip (py "  # B=2 ") = [] \/
          startswith (strip (py "  # B=2 ")) [HASH] = true \/
          contains EQ (py "  # B=2 ") = false) as H
    by (right; left; reflexivity).
  destruct (skipped_line_no_entry _ H) as [_ Hf].
  exact (Hf [py "A=1"] [py "C=3"] ∅).
Defined.

(** C2.  A key that is in the environment before [load_dotenv] runs has
    the same value after it, whatever the file holds; a key whose lookup
    the loader changes was absent before. *)
Theorem load_dotenv_keeps_existing
    (file : option str) (env : gmap str str) (k v : str) :
  env !! k = Some v ->
  load_dotenv file env !! k = Some v
  /\ (forall k', load_dotenv file env !! k' <> env !! k' -> env !! k' = None).
Proof.
  assert (forall k0 v0, env !! k0 = Some v0 ->
                        load_dotenv file env !! k0 = Some v0) as Hkeep.
  { intros k0 v0 H. destruct file as [text|]; simpl; [|done].
    by apply load_lines_lookup_Some. }
  intros H. split; [by apply Hkeep|].
  intros k' Hne. destruct (env !! k') as [v'|] eqn:Hk'; [|done].
  by rewrite (Hkeep k' v') in Hne.
Qed.

Lemma load_dotenv_keeps_existing_witness :
  load_dotenv (Some (py "A=from file" ++ [10%N] ++ py "B=2"))
              (<[py "A" := py "from process"]> ∅) !! py "A"
  = Some (py "from process").
Proof.
  apply (load_dotenv_keeps_existing
           (Some (py "A=from file" ++ [10%N] ++ py "B=2"))
           (<[py "A" := py "from process"]> ∅) (py "A") (py "from process")).
  vm_compute. reflexivity.
Defined.

(** ** The shape of the loop's log *)

Lemma run_files_returns d out (fs : list entry) c t c' :
  run_files d out fs c = (t, inr c') ->
  exists sqls, map read_text fs = map inr sqls /\ t = files_done fs sqls.
Proof.
  revert c t. induction fs as [|f fs IH]; simpl; intros c t.
  - intros [= <- _]. by exists [].
  - unfold bind, do_call, print; simpl.
    destruct (read_text f) as [e|sql] eqn:Hr; [done|].
    destruct (out _) as [e|]; [done|].
    destruct (execute d sql c) as [e|c1]; [done|].
    destruct (run_files d out fs c1) as [t1 [e|c2]] eqn:Hrun; [done|].
    intros [= <- <-]. destruct (IH _ _ Hrun) as (sqls & Hs & ->).
    exists (sql :: sqls). simpl. by rewrite Hs.
Qed.

(** When the loop raises, some file [f] is the one that failed, after the
    files before it were done: its text could not be read, or its text was
    read and its progress line could not be printed, or the line was
    printed and the execution of the text raised. *)
Lemma run_files_raises d out (fs : list entry) c t e :
  run_files d out fs c = (t, inl e) ->
  exists before f after sqls,
    fs = before ++ f :: after
    /\ map read_text before = map inr sqls
    /\ (t = files_done before sqls ++ [Call (ReadText (name f)) (Raised e)]
          /\ read_text f = inl e
        \/ (exists sql,
          t = files_done before sqls ++
              [ Call (ReadText (name f)) Returned;
                Call (PrintOut (running (name f))) (Raised e) ]
          /\ read_text f = inr sql)
        \/ exists sql,
          t = files_done before sqls ++
              [ Call (ReadText (name f)) Returned;
                Print (running (name f));
                Call (Execute sql) (Raised e) ]
          /\ read_text f = inr sql).
Proof.
  revert c t. induction fs as [|f fs IH]; simpl; intros c t; [done|].
  unfold bind, do_call, print; simpl.
  destruct (read_text f) as [e1|sql] eqn:Hr.
  { intros [= <- <-]. exists [], f, fs, []. simpl. auto. }
  destruct (out _) as [e1|].
  { intros [= <- <-]. exists [], f, fs, []. simpl. split; [done|].
    split; [done|]. right. left. by exists sql. }
  destruct (execute d sql c) as [e1|c1].
  { intros [= <- <-]. exists [], f, fs, []. simpl. split; [done|].
    split; [done|]. right. right. by exists sql. }
  destruct (run_files d out fs c1) as [t1 [e1|c2]] eqn:Hrun; [|done].
  intros [= <- <-].
  destruct (IH _ _ Hrun) as (before & g & after & sqls & -> & Hs & Ht).
  exists (f :: before), g, after, (sql :: sqls). simpl. rewrite Hr, Hs.
  split; [done|]. split; [done|].
  destruct Ht as [[-> Hg]|[(q & -> & Hg)|(q & -> & Hg)]];
    [left | right; left; exists q | right; right; exists q]; done.
Qed.

Lemma try_block_shape d out url fs :
  try_shape url fs (try_block d out url fs).1 (try_block d out url fs).2.
Proof.
  unfold try_block, bind, do_call, with_scope, ret.
  destruct (connect d url) as [e|c]; simpl; [constructor|].
  destruct (cursor d c) as [e|c1]; simpl; [constructor|].
  destruct (run_files d out fs c1) as [tf [e|c2]] eqn:Hrun; simpl.
  - destruct (run_files_raises _ _ _ _ _ _ Hrun)
      as (before & f & after & sqls & Hfs & Hs
          & [[-> Hf]|[(sql & -> & Hf)|(sql & -> & Hf)]]).
    + rewrite <- !app_assoc. simpl. by eapply read_raised.
    + rewrite <- !app_assoc. simpl. by eapply print_raised.
    + rewrite <- !app_assoc. simpl. by eapply execute_raised.
  - destruct (run_files_returns _ _ _ _ _ _ Hrun) as (sqls & Hs & ->).
    destruct (commit d c2) as [e|c3]; simpl.
    + rewrite <- !app_assoc. simpl. by apply commit_raised.
    + rewrite <- !app_assoc. simpl. by apply all_returned.
Qed.

Lemma main_has_shape w : main_shape w (main w).
Proof.
  unfold main.
  destruct (falsy _) eqn:Hf; [by constructor|].
  destruct (getenv _ DATABASE_URL) as [[|ch url]|] eqn:Hurl; try done.
  simpl default.
  destruct (migrations w) as [listing|] eqn:Hm; [|by eapply no_directory].
  destruct (sorted path_ltb (glob_sql listing)) as [|f fs] eqn:Hs;
    [by eapply no_files|].
  pose proof (try_block_shape (db w) (print_raises w) (ch :: url) (f :: fs))
    as Hsh.
  destruct (try_block _ _ _ _) as [t [exc|[]]]; simpl in Hsh.
  - apply (failed w (ch :: url) listing); try done; by rewrite Hs.
  - apply (applied w (ch :: url) listing); try done; by rewrite Hs.
Qed.

(** ** Projections of the log *)

Lemma raises_app t1 t2 : raises (t1 ++ t2) = raises t1 ++ raises t2.
Proof. apply omap_app. Qed.
Lemma prints_app t1 t2 : prints (t1 ++ t2) = prints t1 ++ prints t2.
Proof. apply omap_app. Qed.
Lemma connects_app t1 t2 : connects (t1 ++ t2) = connects t1 ++ connects t2.
Proof. apply omap_app. Qed.
Lemma reads_app t1 t2 : reads (t1 ++ t2) = reads t1 ++ reads t2.
Proof. apply omap_app. Qed.
Lemma executes_app t1 t2 : executes (t1 ++ t2) = executes t1 ++ executes t2.
Proof. apply omap_app. Qed.
Lemma commits_app t1 t2 : commits (t1 ++ t2) = commits t1 ++ commits t2.
Proof. apply omap_app. Qed.

Lemma elem_of_raises c e t : Call c (Raised e) ∈ t -> e ∈ raises t.
Proof. intros H. apply list_elem_of_omap. by exists (Call c (Raised e)). Qed.

Lemma read_texts_length (fs : list entry) (sqls : list str) :
  map read_text fs = map inr sqls -> length fs = length sqls.
Proof.
  intros H. apply (f_equal length) in H. by rewrite !length_map in H.
Qed.

Section files_done_log.
Variables (fs : list entry) (sqls : list str).
Hypothesis Hlen : length fs = length sqls.

Lemma files_done_raises : raises (files_done fs sqls) = [].
Proof using Type.
  clear Hlen. revert sqls.
  induction fs as [|f fs' IH]; intros [|q qs]; simpl; auto.
Qed.

Lemma files_done_connects : connects (files_done fs sqls) = [].
Proof using Type.
  clear Hlen. revert sqls.
  induction fs as [|f fs' IH]; intros [|q qs]; simpl; auto.
Qed.

Lemma files_done_commits : commits (files_done fs sqls) = [].
Proof using Type.
  clear Hlen. revert sqls.
  induction fs as [|f fs' IH]; intros [|q qs]; simpl; auto.
Qed.

Lemma files_done_reads : reads (files_done fs sqls) = map name fs.
Proof using Hlen.
  revert sqls Hlen.
  induction fs as [|f fs' IH]; intros [|q qs] Hlen; simpl in *; try done.
  f_equal. apply IH. lia.
Qed.

Lemma files_done_prints :
  prints (files_done fs sqls) = map running (map name fs).
Proof using Hlen.
  revert sqls Hlen.
  induction fs as [|f fs' IH]; intros [|q qs] Hlen; simpl in *; try done.
  f_equal. apply IH. lia.
Qed.

Lemma files_done_executes :
  executes (files_done fs sqls) = map (fun q => (q, Returned)) sqls.
Proof using Hlen.
  revert sqls Hlen.
  induction fs as [|f fs' IH]; intros [|q qs] Hlen; simpl in *; try done.
  f_equal. apply IH. lia.
Qed.

Lemma files_done_no_exit b : ExitConn b ∉ files_done fs sqls.
Proof using Type.
  clear Hlen. revert sqls. induction fs as [|f fs' IH]; intros sq.
  - apply not_elem_of_nil.
  - destruct sq as [|q qs]; simpl; [apply not_elem_of_nil|].
    rewrite !not_elem_of_cons. split_and!; first [done | apply IH].
Qed.
End files_done_log.

(** Rewriting a projection of a log built from pieces. *)
Ltac log_simpl :=
  rewrite ?raises_app, ?prints_app, ?connects_app, ?reads_app,
    ?executes_app, ?commits_app;
  rewrite ?files_done_raises, ?files_done_connects, ?files_done_commits;
  repeat match goal with
    | H : map read_text ?fs = map inr ?sqls |- _ =>
        rewrite ?(files_done_reads fs sqls (read_texts_length _ _ H)),
          ?(files_done_prints fs sqls (read_texts_length _ _ H)),
          ?(files_done_executes fs sqls (read_texts_length _ _ H));
        revert H
    end;
  intros; simpl.

Section try_log.
Context {url : str} {fs : list entry} {t : list event} {r : exn + unit}.
Hypothesis Hshape : try_shape url fs t r.

(** An exception raised in the block is the block's result, and it is the
    only one. *)
Lemma try_raises :
  raises t = match r with inl e => [e] | inr _ => [] end.
Proof using Hshape. destruct Hshape; by log_simpl. Qed.

(** One connection attempt, with the given connection string. *)
Lemma try_connects : connects t = [url].
Proof using Hshape. destruct Hshape; by log_simpl. Qed.

(** [conn.commit()] is called at most once, and returns only when the
    block does. *)
Lemma try_commits :
  match r with
  | inr _ => commits t = [Returned]
  | inl e => commits t = [] \/ commits t = [Raised e]
  end.
Proof using Hshape. destruct Hshape; log_simpl; auto. Qed.

(** The connection scope is left without an exception only when the block
    returns. *)
Lemma try_exit_conn : ExitConn false ∈ t -> r = inr tt.
Proof using Hshape.
  destruct Hshape; try done; intros Hin; exfalso; revert Hin;
    rewrite ?elem_of_app, ?elem_of_cons, ?elem_of_nil;
    intros Hor; decompose [or] Hor;
    first [discriminate | done | by eapply files_done_no_exit].
Qed.

(** The files are read in the order of [fs], up to the failing one. *)
Lemma try_reads :
  reads t `prefix_of` map name fs
  /\ (r = inr tt -> reads t = map name fs).
Proof using Hshape.
  destruct Hshape; log_simpl; subst;
    rewrite ?map_app, ?app_nil_r; simpl; split; try done;
    first [apply prefix_nil | apply prefix_app, prefix_cons, prefix_nil].
Qed.

(** The lines printed in the block are progress lines, in the order of
    [fs]: one for each file when the block returns. *)
Lemma try_prints :
  exists shown, shown `prefix_of` map name fs
                /\ prints t = map running shown
                /\ (r = inr tt -> shown = map name fs).
Proof using Hshape.
  destruct Hshape; subst.
  - exists []. log_simpl. split; [apply prefix_nil | done].
  - exists []. log_simpl. split; [apply prefix_nil | done].
  - exists (map name before). log_simpl. rewrite map_app, app_nil_r.
    split; [by apply prefix_app_r | done].
  - exists (map name before). log_simpl. rewrite map_app, app_nil_r.
    split; [by apply prefix_app_r | done].
  - exists (map name before ++ [name f]). log_simpl.
    rewrite !map_app. simpl.
    split; [apply prefix_app, prefix_cons, prefix_nil | done].
  - exists (map name fs). log_simpl. by rewrite app_nil_r.
  - exists (map name fs). log_simpl. by rewrite app_nil_r.
Qed.
End try_log.

(** ** The order on names and the sort *)

Ltac N_cases :=
  repeat match goal with
    | |- context [(?x <? ?y)%N] => destruct (N.ltb_spec x y)
    | |- context [(?x =? ?y)%N] => destruct (N.eqb_spec x y)
    | H : context [(?x <? ?y)%N] |- _ => destruct (N.ltb_spec x y)
    | H : context [(?x =? ?y)%N] |- _ => destruct (N.eqb_spec x y)
    end;
  simpl in *; try done; try lia.

Lemma str_ltb_asym (a b : str) : str_ltb a b = true -> str_ltb b a = false.
Proof.
  revert b. induction a as [|x a IH]; intros [|y b]; simpl; try done.
  intros H. N_cases. subst. by apply IH.
Qed.

Lemma str_le_trans (a b c : str) : str_le a b -> str_le b c -> str_le a c.
Proof.
  unfold str_le. revert b c.
  induction a as [|x a IH]; intros [|y b] [|z c]; simpl; try done.
  intros H1 H2. N_cases; subst; try lia. by eapply IH.
Qed.

Lemma str_le_antisym (a b : str) : str_le a b -> str_le b a -> a = b.
Proof.
  unfold str_le. revert b.
  induction a as [|x a IH]; intros [|y b]; simpl; try done.
  intros H1 H2. N_cases; subst; try lia. f_equal. by apply IH.
Qed.

Lemma str_le_total (a b : str) : str_le a b \/ str_le b a.
Proof.
  unfold str_le. destruct (str_ltb a b) eqn:E; [|by right].
  left. by apply str_ltb_asym.
Qed.

#[local] Instance str_le_transitive : Transitive str_le.
Proof. intros a b c. apply str_le_trans. Qed.

#[local] Instance str_le_antisymm : AntiSymm (=) str_le.
Proof. intros a b. apply str_le_antisym. Qed.

Section sorted_lemmas.
Context {A : Type} (lt : A -> A -> bool).
Hypothesis lt_asym : forall x y, lt x y = true -> lt y x = false.

Lemma insert_sorted_Permutation x l : insert_sorted lt x l ≡ₚ x :: l.
Proof using Type.
  induction l as [|y l IH]; simpl; [done|].
  destruct (lt y x); [|done]. rewrite IH. apply Permutation_swap.
Qed.

Lemma sorted_Permutation l : sorted lt l ≡ₚ l.
Proof using Type.
  induction l as [|x l IH]; simpl; [done|].
  by rewrite insert_sorted_Permutation, IH.
Qed.

Lemma sorted_nil_inv l : sorted lt l = [] -> l = [].
Proof using Type.
  intros H. apply Permutation_nil_r. by rewrite <- (sorted_Permutation l), H.
Qed.

Lemma insert_sorted_HdRel a x l :
  lt x a = false ->
  HdRel (fun u v => lt v u = false) a l ->
  HdRel (fun u v => lt v u = false) a (insert_sorted lt x l).
Proof using Type.
  intros Hax Hal. destruct l as [|y l]; simpl; [by constructor|].
  apply HdRel_inv in Hal. destruct (lt y x); by constructor.
Qed.

Lemma insert_sorted_Sorted x l :
  Sorted (fun u v => lt v u = false) l ->
  Sorted (fun u v => lt v u = false) (insert_sorted lt x l).
Proof using lt_asym.
  induction 1 as [|y l Hl IH Hy]; simpl; [by repeat constructor|].
  destruct (lt y x) eqn:E.
  - constructor; [done|]. apply insert_sorted_HdRel; [|done].
    by apply lt_asym.
  - constructor; [by constructor | by constructor].
Qed.

Lemma sorted_Sorted l : Sorted (fun u v => lt v u = false) (sorted lt l).
Proof using lt_asym.
  induction l as [|x l IH]; simpl; [constructor|].
  by apply insert_sorted_Sorted.
Qed.
End sorted_lemmas.

(** Sorting paths and taking their names is sorting the names. *)
Lemma sorted_names (l : list entry) :
  map name (sorted path_ltb l) = sorted str_ltb (map name l).
Proof.
  induction l as [|f l IH]; simpl; [done|]. rewrite <- IH.
  generalize (sorted path_ltb l). intros s.
  induction s as [|g s IHs]; simpl; [done|].
  unfold path_ltb at 1. destruct (str_ltb (name g) (name f)); simpl; [|done].
  by rewrite IHs.
Qed.

Lemma sorted_names_Sorted (l : list entry) :
  Sorted str_le (map name (sorted path_ltb l)).
Proof. rewrite sorted_names. apply sorted_Sorted, str_ltb_asym. Qed.

Lemma sorted_names_Permutation (l : list entry) :
  map name (sorted path_ltb l) ≡ₚ map name l.
Proof. rewrite sorted_names. apply sorted_Permutation. Qed.

(** Of the arrangements of the names, one is in order. *)
Lemma sorted_names_unique (l : list entry) (order : list str) :
  Sorted str_le order -> order ≡ₚ map name l ->
  order = map name (sorted path_ltb l).
Proof.
  intros Hs Hp. apply (Sorted_unique str_le); [done|..].
  - apply sorted_names_Sorted.
  - by rewrite Hp, sorted_names_Permutation.
Qed.

Lemma glob_sql_names_NoDup (listing : list entry) :
  NoDup (map name listing) -> NoDup (map name (glob_sql listing)).
Proof.
  unfold glob_sql. induction listing as [|f l IH]; simpl; [done|].
  rewrite NoDup_cons. intros [Hf Hl].
  destruct (endswith _ _); simpl; [|by apply IH].
  apply NoDup_cons. split; [|by apply IH].
  intros Hin. apply Hf. apply list_elem_of_In, in_map_iff in Hin
    as (g & Hg & Hgin). apply filter_In in Hgin as [Hgin _].
  apply list_elem_of_In, in_map_iff. eauto.
Qed.

(** ** The lines of the runner *)

Lemma running_not_applied n : running n <> py "Migrations applied.".
Proof. unfold running. intros H. vm_compute in H. discriminate. Qed.

Lemma failed_not_applied m :
  py "Migration failed: " ++ m <> py "Migrations applied.".
Proof. intros H. vm_compute in H. discriminate. Qed.

Lemma failed_not_running m n : py "Migration failed: " ++ m <> running n.
Proof. unfold running. intros H. vm_compute in H. discriminate. Qed.

Lemma running_inj n n' : running n = running n' -> n = n'.
Proof.
  unfold running. intros H%app_inv_head. by apply app_inv_tail in H.
Qed.

Lemma applied_not_in_progress (shown : list str) :
  py "Migrations applied." ∉ map running shown.
Proof.
  intros (n & Hn & _)%list_elem_of_In%in_map_iff.
  by apply (running_not_applied n).
Qed.

(** ** The checks before the [try] block *)

(** C6.  When [DATABASE_URL] is unset or empty once the loader has run,
    the run prints one line saying so, attempts no connection, and ends
    with status 1. *)
Theorem database_url_not_set (w : world) :
  getenv (load_dotenv (dotenv w) (environ w)) DATABASE_URL = None
  \/ getenv (load_dotenv (dotenv w) (environ w)) DATABASE_URL = Some [] ->
  main w = ([Print (py "DATABASE_URL is not set.")], 1%Z)
  /\ connects (main w).1 = [].
Proof.
  intros H. assert (main w = ([Print (py "DATABASE_URL is not set.")], 1%Z))
    as ->; [|done].
  unfold main. by destruct H as [-> | ->].
Qed.

Lemma database_url_not_set_witness :
  main (toy_world ∅ None (Some two_files) (py "DROP") true)
  = ([Print (py "DATABASE_URL is not set.")], 1%Z).
Proof.
  apply (database_url_not_set
           (toy_world ∅ None (Some two_files) (py "DROP") true)).
  left. reflexivity.
Defined.

(** C9.  When [DATABASE_URL] is in the process environment with the empty
    string as its value, an entry for it in the file has no effect: the key
    is present, so the loader leaves it, and the run ends as with no value
    at all. *)
Theorem empty_database_url_wins (w : world) :
  environ w !! DATABASE_URL = Some [] ->
  load_dotenv (dotenv w) (environ w) !! DATABASE_URL = Some []
  /\ main w = ([Print (py "DATABASE_URL is not set.")], 1%Z).
Proof.
  intros H.
  assert (load_dotenv (dotenv w) (environ w) !! DATABASE_URL = Some []) as Hl.
  { destruct (dotenv w) as [text|]; simpl; [|done].
    by apply load_lines_lookup_Some. }
  split; [done|]. unfold main, getenv. by rewrite Hl.
Qed.

Lemma empty_database_url_wins_witness :
  main (toy_world (<[DATABASE_URL := []]> ∅)
          (Some (py "DATABASE_URL=postgres://db")) (Some two_files)
          (py "DROP") true)
  = ([Print (py "DATABASE_URL is not set.")], 1%Z).
Proof.
  apply (empty_database_url_wins
           (toy_world (<[DATABASE_URL := []]> ∅)
              (Some (py "DATABASE_URL=postgres://db")) (Some two_files)
              (py "DROP") true)).
  vm_compute. reflexivity.
Defined.

(** C7 (as amended).  When the migrations directory exists and holds no
    name ending in dot-sql, no connection is attempted and the status is 1;
    and when moreover [DATABASE_URL] is set and not empty once the loader
    has run, the one line printed says that no migration files were found. *)
Theorem no_migration_files (w : world) (listing : list entry) :
  migrations w = Some listing ->
  glob_sql listing = [] ->
  connects (main w).1 = []
  /\ (main w).2 = 1%Z
  /\ (falsy (getenv (load_dotenv (dotenv w) (environ w)) DATABASE_URL) = false ->
      main w = ([Print (py "No migration files found.")], 1%Z)).
Proof.
  intros Hm Hg. unfold main. rewrite Hm, Hg. simpl.
  by destruct (falsy _).
Qed.

Lemma no_migration_files_witness :
  main (toy_world ∅ (Some (py "DATABASE_URL=postgres://db"))
          (Some [Entry (py "notes.txt") (inr (py "hello"))]) (py "DROP") true)
  = ([Print (py "No migration files found.")], 1%Z).
Proof.
  apply (no_migration_files
           (toy_world ∅ (Some (py "DATABASE_URL=postgres://db"))
              (Some [Entry (py "notes.txt") (inr (py "hello"))])
              (py "DROP") true)
           [Entry (py "notes.txt") (inr (py "hello"))]);
    reflexivity.
Defined.

(** C7, as stated, fails: with no [DATABASE_URL] the run stops at the first
    check, before the directory is looked at, and the line about migration
    files is not printed. *)
Lemma no_migration_files_counterexample :
  let w := toy_world ∅ None (Some []) (py "DROP") true in
  migrations w = Some [] /\ glob_sql [] = []
  /\ main w = ([Print (py "DATABASE_URL is not set.")], 1%Z)
  /\ py "No migration files found." ∉ prints (main w).1.
Proof.
  simpl. repeat split. intros Hin%list_elem_of_In. vm_compute in Hin.
  by destruct Hin as [[=]|[]].
Qed.

(** ** Failure and success of the [try] block *)

Lemma failed_reads_app t1 t2 :
  failed_reads (t1 ++ t2) = failed_reads t1 ++ failed_reads t2.
Proof. apply omap_app. Qed.

Lemma files_done_failed_reads fs sqls : failed_reads (files_done fs sqls) = [].
Proof.
  revert sqls. induction fs as [|f fs' IH]; intros [|q qs]; simpl; auto.
Qed.

(** An exception raised in a run is the one the handler reports. *)
Lemma raise_is_caught (w : world) (e : exn) :
  e ∈ raises (main w).1 ->
  raises (main w).1 = [e]
  /\ last (main w).1 = Some (Print (py "Migration failed: " ++ exn_msg e))
  /\ (py "Migrations applied." ∉ prints (main w).1)
  /\ (Returned ∉ commits (main w).1)
  /\ (ExitConn false ∉ (main w).1)
  /\ (main w).2 = 1%Z.
Proof.
  intros Hin. pose proof (main_has_shape w) as Hs.
  destruct (main w) as [t code]. simpl in *.
  inversion Hs as [ | | |url listing t' exc Hu Hne Hm Hfs Ht
                   |url listing t' Hu Hne Hm Hfs Ht]; subst;
    try (by apply elem_of_nil in Hin).
  - rewrite raises_app, (try_raises Ht) in Hin. simpl in Hin.
    apply list_elem_of_singleton in Hin as ->.
    split_and!; try done.
    + by rewrite raises_app, (try_raises Ht).
    + apply last_snoc.
    + destruct (try_prints Ht) as (shown & _ & Hp & _).
      rewrite prints_app, Hp. simpl. rewrite elem_of_app.
      intros [H|H%list_elem_of_singleton].
      * by apply applied_not_in_progress in H.
      * by apply (failed_not_applied (exn_msg exc)).
    + rewrite commits_app, app_nil_r.
      destruct (try_commits Ht) as [-> | ->].
      * apply not_elem_of_nil.
      * by intros [=]%list_elem_of_singleton.
    + rewrite elem_of_app. intros [H|H%list_elem_of_singleton]; [|done].
      by apply (try_exit_conn Ht) in H.
  - rewrite raises_app, (try_raises Ht) in Hin. by apply elem_of_nil in Hin.
Qed.

(** C4.  When a call of the [try] block raises (connecting, opening the
    cursor, reading a file, printing its progress line, executing its text,
    or committing), the run
    ends by printing the failure line with the text of that very exception,
    the success line is not printed, no call of commit has returned, the
    connection scope is not left normally, and the status is 1. *)
Theorem raised_error_is_reported (w : world) (c : call) (e : exn) :
  Call c (Raised e) ∈ (main w).1 ->
  raises (main w).1 = [e]
  /\ last (main w).1 = Some (Print (py "Migration failed: " ++ exn_msg e))
  /\ (py "Migrations applied." ∉ prints (main w).1)
  /\ (Returned ∉ commits (main w).1)
  /\ (ExitConn false ∉ (main w).1)
  /\ (main w).2 = 1%Z.
Proof. intros Hin. eapply raise_is_caught, elem_of_raises, Hin. Qed.

Lemma raised_error_is_reported_witness :
  last (main (toy_world ∅ (Some (py "DATABASE_URL=postgres://db"))
                (Some two_files) (py "CREATE INDEX i") true)).1
  = Some (Print (py "Migration failed: syntax error"))
  /\ last (main (strict_world (Some surrogate_files))).1
     = Some (Print (py "Migration failed: surrogates not allowed")).
Proof.
  split.
  - apply (raised_error_is_reported
             (toy_world ∅ (Some (py "DATABASE_URL=postgres://db"))
                (Some two_files) (py "CREATE INDEX i") true)
             (Execute (py "CREATE INDEX i")) (Exception (py "syntax error"))).
    vm_compute. do 7 apply list_elem_of_further. apply list_elem_of_here.
  - apply (raised_error_is_reported
             (strict_world (Some surrogate_files))
             (PrintOut (running (py "001_" ++ [56575%N] ++ py ".sql")))
             (Exception (py "surrogates not allowed"))).
    vm_compute. do 3 apply list_elem_of_further. apply list_elem_of_here.
Defined.

(** C5 (as amended).  When the run gets to the [try] block and no call in
    it raises, neither connecting, nor opening the cursor, nor reading a
    file, printing its progress line or executing its text, nor committing,
    then commit is called once and
    returns, the success line is printed once, after the progress lines,
    and the status is 0. *)
Theorem no_raise_commits_once (w : world) (listing : list entry) :
  falsy (getenv (load_dotenv (dotenv w) (environ w)) DATABASE_URL) = false ->
  migrations w = Some listing ->
  glob_sql listing <> [] ->
  raises (main w).1 = [] ->
  commits (main w).1 = [Returned]
  /\ (exists progress, prints (main w).1 = progress ++ [py "Migrations applied."]
                       /\ py "Migrations applied." ∉ progress)
  /\ (main w).2 = 0%Z.
Proof.
  intros Hf Hm Hg Hr. pose proof (main_has_shape w) as Hs.
  destruct (main w) as [t code]. simpl in *.
  inversion Hs as [Hf'|url Hu Hne Hm'|url listing' Hu Hne Hm' Hfs
                   |url listing' t' exc Hu Hne Hm' Hfs Ht
                   |url listing' t' Hu Hne Hm' Hfs Ht]; subst.
  - congruence.
  - congruence.
  - rewrite Hm in Hm'. injection Hm' as <-.
    by apply sorted_nil_inv in Hfs.
  - rewrite raises_app, (try_raises Ht) in Hr. done.
  - split_and!; [ | | done].
    + rewrite commits_app, (try_commits Ht). done.
    + destruct (try_prints Ht) as (shown & _ & Hp & _).
      exists (map running shown). rewrite prints_app, Hp. split; [done|].
      apply applied_not_in_progress.
Qed.

Lemma no_raise_commits_once_witness :
  commits (main (toy_world ∅ (Some (py "DATABASE_URL=postgres://db"))
                   (Some two_files) (py "DROP") true)).1 = [Returned].
Proof.
  apply (no_raise_commits_once
           (toy_world ∅ (Some (py "DATABASE_URL=postgres://db"))
              (Some two_files) (py "DROP") true) two_files).
  - reflexivity.
  - reflexivity.
  - vm_compute. discriminate.
  - reflexivity.
Defined.

(** C5, as stated, fails: every file's text is executed without an
    exception, then commit raises; nothing is committed, the failure line is
    printed in place of the success line, and the status is 1. *)
Lemma commit_raises_counterexample :
  let w := toy_world ∅ (Some (py "DATABASE_URL=postgres://db"))
             (Some two_files) (py "DROP") false in
  executes (main w).1
  = [(py "CREATE TABLE t", Returned); (py "CREATE INDEX i", Returned)]
  /\ commits (main w).1 = [Raised (Exception (py "commit failed"))]
  /\ prints (main w).1
     = [py "Running 001_init.sql..."; py "Running 002_add_index.sql...";
        py "Migration failed: commit failed"]
  /\ (main w).2 = 1%Z.
Proof. simpl. repeat split; reflexivity. Qed.

Lemma texts_app fs1 fs2 : texts (fs1 ++ fs2) = texts fs1 ++ texts fs2.
Proof. apply omap_app. Qed.

Lemma texts_read (fs : list entry) (sqls : list str) :
  map read_text fs = map inr sqls -> texts fs = sqls.
Proof.
  revert sqls. induction fs as [|f fs IH]; intros [|q qs]; simpl; try done.
  intros [= Hf Hfs]. unfold texts. simpl. rewrite Hf. f_equal. by apply IH.
Qed.

(** The statements sent are the texts of the files, in the order of the
    files, up to the failing one. *)
Lemma try_executes url fs t r :
  try_shape url fs t r ->
  map fst (executes t) `prefix_of` texts fs
  /\ (r = inr tt -> map fst (executes t) = texts fs).
Proof.
  assert (forall qs : list str,
             map fst (map (fun q => (q, Returned)) qs) = qs) as Hfst.
  { intros qs. induction qs as [|q qs IH]; simpl; [done|]. by rewrite IH. }
  destruct 1 as [e|e|e before f after sqls Hfs Hs Hf
                |e before f after sqls sql Hfs Hs Hf
                |e before f after sqls sql Hfs Hs Hf|e sqls Hs|sqls Hs];
    log_simpl; subst;
    rewrite ?texts_app, ?map_app, ?Hfst, ?app_nil_r; simpl;
    repeat match goal with
      | H : map read_text _ = map inr _ |- _ =>
          rewrite (texts_read _ _ H); clear H
      end;
    split; try done; try apply prefix_nil.
  - by apply prefix_app_r.
  - by apply prefix_app_r.
  - unfold texts at 1. simpl. rewrite Hf. simpl.
    apply prefix_app, prefix_cons, prefix_nil.
Qed.

Lemma elem_of_failed_reads n e t :
  Call (ReadText n) (Raised e) ∈ t -> (n, e) ∈ failed_reads t.
Proof.
  intros H. apply list_elem_of_omap. by exists (Call (ReadText n) (Raised e)).
Qed.

(** A read that raised is the last step of the loop, and the progress line
    of its file is not among the lines of the block. *)
Lemma try_failed_read url fs t r n e :
  NoDup (map name fs) ->
  try_shape url fs t r ->
  (n, e) ∈ failed_reads t ->
  r = inl e /\ running n ∉ prints t.
Proof.
  intros Hnd Ht Hin.
  destruct Ht as [e0|e0|e0 before f after sqls Hfs Hs Hf
                 |e0 before f after sqls sql Hfs Hs Hf
                 |e0 before f after sqls sql Hfs Hs Hf|e0 sqls Hs|sqls Hs];
    revert Hin; rewrite ?failed_reads_app, ?files_done_failed_reads; simpl;
    try (by intros ?%elem_of_nil).
  intros [= -> ->]%list_elem_of_singleton. split; [done|].
  log_simpl. rewrite app_nil_r.
  intros (n' & Hn' & Hin)%list_elem_of_In%in_map_iff.
  apply running_inj in Hn' as ->. apply list_elem_of_In in Hin.
  subst fs. rewrite map_app in Hnd. simpl in Hnd.
  apply NoDup_app in Hnd as (_ & Hnd & _).
  apply (Hnd _ Hin), list_elem_of_here.
Qed.

(** C10.  When reading the text of a migration file raises, the progress
    line of that file is not printed, the exception is the one the handler
    of the run reports in the failure line, and the status is 1.  The names
    of the directory are distinct, as those of a directory are. *)
Theorem read_error_is_reported
    (w : world) (listing : list entry) (n : str) (e : exn) :
  migrations w = Some listing ->
  NoDup (map name listing) ->
  Call (ReadText n) (Raised e) ∈ (main w).1 ->
  (running n ∉ prints (main w).1)
  /\ raises (main w).1 = [e]
  /\ last (main w).1 = Some (Print (py "Migration failed: " ++ exn_msg e))
  /\ (py "Migrations applied." ∉ prints (main w).1)
  /\ (main w).2 = 1%Z.
Proof.
  intros Hm Hnd Hin.
  destruct (raise_is_caught w e (elem_of_raises _ _ _ Hin))
    as (Hr & Hl & Ha & _ & _ & Hc).
  split_and!; try done.
  apply elem_of_failed_reads in Hin. clear Hr Hl Ha Hc.
  pose proof (main_has_shape w) as Hs.
  destruct (main w) as [t code]. simpl in *.
  assert (forall url t' r,
             try_shape url (sorted path_ltb (glob_sql listing)) t' r ->
             (n, e) ∈ failed_reads t' -> running n ∉ prints t') as Hblock.
  { intros url t' r Ht Hin'. eapply try_failed_read; [|exact Ht|exact Hin'].
    eapply (NoDup_Permutation_proper _ _ (sorted_names_Permutation _)).
    by apply glob_sql_names_NoDup. }
  inversion Hs as [ | | |url listing' t' exc Hu Hne Hm' Hfs Ht
                   |url listing' t' Hu Hne Hm' Hfs Ht]; subst;
    try (by apply elem_of_nil in Hin);
    rewrite Hm in Hm'; injection Hm' as <-;
    rewrite failed_reads_app, app_nil_r in Hin;
    apply (Hblock _ _ _ Ht) in Hin;
    rewrite prints_app; simpl; rewrite elem_of_app;
    (intros [H|H%list_elem_of_singleton]; [done|]).
  - symmetry in H. by apply failed_not_running in H.
  - by apply running_not_applied in H.
Qed.

Lemma read_error_is_reported_witness :
  let w := toy_world ∅ (Some (py "DATABASE_URL=postgres://db"))
             (Some unreadable_files) (py "DROP") true in
  (running (py "002_add_index.sql") ∉ prints (main w).1)
  /\ raises (main w).1 = [Exception (py "Permission denied")]
  /\ last (main w).1 = Some (Print (py "Migration failed: Permission denied"))
  /\ (py "Migrations applied." ∉ prints (main w).1)
  /\ (main w).2 = 1%Z.
Proof.
  apply (read_error_is_reported
           (toy_world ∅ (Some (py "DATABASE_URL=postgres://db"))
              (Some unreadable_files) (py "DROP") true)
           unreadable_files (py "002_add_index.sql")
           (Exception (py "Permission denied"))).
  - reflexivity.
  - apply NoDup_cons. split.
    + by intros [=]%list_elem_of_singleton.
    + apply NoDup_singleton.
  - vm_compute. do 5 apply list_elem_of_further. apply list_elem_of_here.
Defined.

Lemma try_returns_texts url fs t :
  try_shape url fs t (inr tt) -> map read_text fs = map inr (texts fs).
Proof.
  inversion 1 as [ | | | | | |sqls Hs]; subst. by rewrite (texts_read _ _ Hs).
Qed.

(** C3.  The names found by the glob have one arrangement in lexicographic
    order, and it is the one [sorted] returns.  In every run the files are
    read, and their texts executed, in that order, up to the file where the
    run fails; a run that ends with status 0 has gone through all of them,
    with one progress line each. *)
Theorem migrations_run_in_sorted_order (w : world) (listing : list entry) :
  migrations w = Some listing ->
  let files := sorted path_ltb (glob_sql listing) in
  let order := map name files in
  Sorted str_le order
  /\ order ≡ₚ map name (glob_sql listing)
  /\ (forall l, Sorted str_le l -> l ≡ₚ map name (glob_sql listing) ->
                l = order)
  /\ reads (main w).1 `prefix_of` order
  /\ map fst (executes (main w).1) `prefix_of` texts files
  /\ ((main w).2 = 0%Z ->
      reads (main w).1 = order
      /\ map read_text files = map inr (texts files)
      /\ map fst (executes (main w).1) = texts files
      /\ prints (main w).1 = map running order ++ [py "Migrations applied."]).
Proof.
  intros Hm files order.
  split; [apply sorted_names_Sorted|].
  split; [apply sorted_names_Permutation|].
  split; [intros l; apply sorted_names_unique|].
  pose proof (main_has_shape w) as Hs.
  destruct (main w) as [t code]. simpl.
  inversion Hs as [Hf|url Hu Hne Hm'|url listing' Hu Hne Hm' Hfs
                   |url listing' t' exc Hu Hne Hm' Hfs Ht
                   |url listing' t' Hu Hne Hm' Hfs Ht]; subst;
    try (split_and!; [apply prefix_nil..|done]);
    rewrite Hm in Hm'; injection Hm' as <-;
    rewrite reads_app, executes_app, prints_app, !app_nil_r.
  - destruct (try_reads Ht) as [Hr _]. destruct (try_executes _ _ _ _ Ht) as [He _].
    done.
  - destruct (try_reads Ht) as [Hr Hr']. destruct (try_executes _ _ _ _ Ht) as [He He'].
    destruct (try_prints Ht) as (shown & _ & Hp & Hshown).
    split_and!; try done. intros _. split_and!; auto.
    + by apply (try_returns_texts url _ t').
    + by rewrite Hp, Hshown.
Qed.

Lemma migrations_run_in_sorted_order_witness :
  let w := toy_world ∅ (Some (py "DATABASE_URL=postgres://db"))
             (Some two_files) (py "DROP") true in
  reads (main w).1 = [py "001_init.sql"; py "002_add_index.sql"]
  /\ map fst (executes (main w).1) = [py "CREATE TABLE t"; py "CREATE INDEX i"].
Proof.
  destruct (migrations_run_in_sorted_order
              (toy_world ∅ (Some (py "DATABASE_URL=postgres://db"))
                 (Some two_files) (py "DROP") true) two_files eq_refl)
    as (_ & _ & _ & _ & _ & H).
  destruct (H eq_refl) as (Hr & _ & He & _). split; [exact Hr | exact He].
Defined.

(** * Further properties of the loader *)

(** The loop body stores the entry of a line when its key is absent. *)
Lemma load_line_entry (env : gmap str str) (line : str) :
  load_line env line
  = match line_entry line with
    | Some (k, v) =>
        match env !! k with None => <[k := v]> env | Some _ => env end
    | None => env
    end.
Proof.
  unfold load_line, line_entry.
  destruct (_ || _ || _); [done|].
  destruct (split1 EQ (strip line)) as [|k [|v [|? ?]]]; try done.
  destruct (bool_decide (strip k = [])); simpl; [done|].
  destruct (env !! strip k) eqn:E.
  - by rewrite bool_decide_eq_false_2 by done.
  - by rewrite bool_decide_eq_true_2 by done.
Qed.

Lemma load_lines_lookup (ls : list str) (env : gmap str str) (k : str) :
  fold_left load_line ls env !! k
  = match env !! k with
    | Some v => Some v
    | None => first_value k (omap line_entry ls)
    end.
Proof.
  revert env. induction ls as [|line ls IH]; intros env; simpl.
  { by destruct (env !! k). }
  rewrite IH, load_line_entry.
  destruct (line_entry line) as [[k' v']|]; simpl; [|done].
  destruct (decide (k' = k)) as [->|Hne].
  - rewrite bool_decide_eq_true_2 by done.
    destruct (env !! k) eqn:E; [by rewrite E|]. by rewrite lookup_insert_eq.
  - rewrite bool_decide_eq_false_2 by done.
    destruct (env !! k') eqn:E'; [done|]. by rewrite lookup_insert_ne.
Qed.

Lemma load_dotenv_lookup_env (file : option str) (env : gmap str str) k :
  load_dotenv file env !! k
  = match env !! k with
    | Some v => Some v
    | None => first_value k (dotenv_entries file)
    end.
Proof.
  destruct file as [text|]; simpl; [apply load_lines_lookup|].
  by destruct (env !! k).
Qed.

(** X1.  What a variable is after loading: its value in the process
    environment when it has one, and otherwise the value of the first entry
    of the file for it, if any. *)
Theorem load_dotenv_lookup (file : option str) (env : gmap str str) (k : str) :
  load_dotenv file env !! k
  = match env !! k with
    | Some v => Some v
    | None => first_value k (dotenv_entries file)
    end.
Proof. apply load_dotenv_lookup_env. Qed.

(** X2.  Loading the same file a second time changes nothing. *)
Theorem load_dotenv_idempotent (file : option str) (env : gmap str str) :
  load_dotenv file (load_dotenv file env) = load_dotenv file env.
Proof.
  apply map_eq. intros k. rewrite (load_dotenv_lookup_env file (load_dotenv _ _)).
  rewrite load_dotenv_lookup_env.
  destruct (env !! k); [done|]. by destruct (first_value _ _).
Qed.


(** *** Files put end to end *)

Lemma splitlines_from_cr_other cur d (s : str) :
  d <> 10%N ->
  splitlines_from cur (13%N :: d :: s) = cur :: splitlines_from [] (d :: s).
Proof.
  intros Hd. destruct d as [|[p|[p|p|]|]]; try reflexivity.
  destruct p as [p|[p|p|]|]; try reflexivity. by destruct Hd.
Qed.

(** A line feed after [t1] ends the last line of [t1]; it adds an empty
    line when [t1] has no line open at its end, and none when it closes a
    carriage return. *)
Lemma splitlines_from_newline (n : nat) :
  forall (t1 cur t2 : str), length t1 <= n ->
  exists gap, (gap = [] \/ gap = [[]])
    /\ splitlines_from cur (t1 ++ 10%N :: t2)
       = splitlines_from cur t1 ++ gap ++ splitlines_from [] t2.
Proof.
  induction n as [|n IH]; intros t1 cur t2 Hlen.
  - destruct t1; [|simpl in Hlen; lia]. simpl.
    destruct cur; [exists [[]] | exists []]; auto.
  - destruct t1 as [|c t1].
    { simpl. destruct cur; [exists [[]] | exists []]; auto. }
    simpl in Hlen. destruct (decide (c = 13%N)) as [->|Hc].
    + destruct t1 as [|d t1].
      { exists []. split; [auto|]. reflexivity. }
      destruct (decide (d = 10%N)) as [->|Hd].
      * destruct (IH t1 [] t2) as (gap & Hgap & Heq); [simpl in Hlen; lia|].
        exists gap. split; [done|]. simpl. by rewrite Heq.
      * destruct (IH (d :: t1) [] t2) as (gap & Hgap & Heq); [lia|].
        exists gap. split; [done|].
        rewrite <- !app_comm_cons, !splitlines_from_cr_other by done.
        rewrite app_comm_cons, Heq. done.
    + apply N.eqb_neq in Hc. simpl. rewrite Hc.
      destruct (islinebreak c).
      * destruct (IH t1 [] t2) as (gap & Hgap & Heq); [lia|].
        exists gap. split; [done|]. by rewrite Heq.
      * destruct (IH t1 (cur ++ [c]) t2) as (gap & Hgap & Heq); [lia|].
        exists gap. split; [done|]. by rewrite Heq.
Qed.

Lemma load_line_empty (env : gmap str str) : load_line env [] = env.
Proof. reflexivity. Qed.

(** X3.  Two files put end to end with a line feed between them load as
    the first followed by the second. *)
Theorem load_dotenv_concat (t1 t2 : str) (env : gmap str str) :
  load_dotenv (Some (t1 ++ [10%N] ++ t2)) env
  = load_dotenv (Some t2) (load_dotenv (Some t1) env).
Proof.
  simpl. unfold splitlines.
  destruct (splitlines_from_newline (length t1) t1 [] t2) as (gap & Hgap & ->);
    [done|].
  rewrite !fold_left_app. by destruct Hgap as [-> | ->].
Qed.

(** *** The ends of what [strip] returns *)

Section strip_ends.
Variable p : N -> bool.

Lemma lstrip_with_head_kept (s : str) c :
  head (lstrip_with p s) = Some c -> p c = false.
Proof.
  induction s as [|x s IH]; simpl; [done|].
  destruct (p x) eqn:E; [done|]. by intros [= <-].
Qed.

Lemma rstrip_with_prefix (s : str) : rstrip_with p s `prefix_of` s.
Proof.
  apply prefix_suffix_reverse. unfold rstrip_with.
  rewrite reverse_involutive. apply lstrip_with_suffix.
Qed.

Lemma prefix_head (l1 l2 : str) c :
  l1 `prefix_of` l2 -> head l1 = Some c -> head l2 = Some c.
Proof. intros [k ->]. by destruct l1. Qed.

Lemma strip_with_head_kept (s : str) c :
  head (strip_with p s) = Some c -> p c = false.
Proof.
  intros H. apply (lstrip_with_head_kept s).
  eapply prefix_head; [apply rstrip_with_prefix | exact H].
Qed.

Lemma strip_with_last_kept (s : str) c :
  last (strip_with p s) = Some c -> p c = false.
Proof.
  unfold strip_with, rstrip_with. rewrite last_reverse.
  apply lstrip_with_head_kept.
Qed.

(** Stripping keeps the first character of a text that starts with a
    character that stays. *)
Lemma strip_with_head_same (s : str) c c' :
  head s = Some c -> p c = false ->
  head (strip_with p s) = Some c' -> c' = c.
Proof.
  intros Hs Hc H. unfold strip_with in H.
  rewrite (lstrip_with_head p s) in H by (intros ? ?; congruence).
  eapply prefix_head in H; [|apply rstrip_with_prefix]. congruence.
Qed.
End strip_ends.

Lemma partition_at_first c (k v : str) :
  c ∉ k -> partition_at c (k ++ c :: v) = Some (k, v).
Proof.
  induction k as [|x k IH]; simpl; intros Hk.
  - by rewrite N.eqb_refl.
  - apply not_elem_of_cons in Hk as [Hx Hk].
    assert ((x =? c)%N = false) as -> by (apply N.eqb_neq; congruence).
    by rewrite IH.
Qed.

Lemma first_value_elem_of k v (entries : list (str * str)) :
  first_value k entries = Some v -> (k, v) ∈ entries.
Proof.
  induction entries as [|[k' v'] rest IH]; simpl; [done|].
  destruct (decide (k' = k)) as [->|Hne].
  - rewrite bool_decide_eq_true_2 by done. intros [= ->].
    apply list_elem_of_here.
  - rewrite bool_decide_eq_false_2 by done. intros H.
    by apply list_elem_of_further, IH.
Qed.

(** What the guard and the trimming make of the entry of a line. *)
Lemma line_entry_wellformed (line k v : str) :
  line_entry line = Some (k, v) ->
  k <> [] /\ (EQ ∉ k)
  /\ (forall c, head k = Some c -> isspace c = false /\ c <> HASH)
  /\ (forall c, last k = Some c -> isspace c = false)
  /\ head v <> Some DQ /\ last v <> Some DQ.
Proof.
  unfold line_entry.
  destruct (bool_decide (strip line = [])) eqn:Hraw; [done|].
  destruct (startswith (strip line) [HASH]) eqn:Hhash; [done|].
  destruct (contains EQ (strip line)) eqn:Hc; [|done]. simpl.
  unfold split1.
  destruct (partition_at EQ (strip line)) as [[k0 v0]|] eqn:Hp; [|done].
  destruct (bool_decide (strip k0 = [])) eqn:Hk; [done|].
  apply bool_decide_eq_false in Hk. intros [= <- <-].
  apply partition_at_app in Hp as [Hline Hk0].
  split_and!; try done.
  - intros Hin%strip_with_sublist. done.
  - intros c Hh.
    destruct k0 as [|c0 k0']; [by destruct Hk|].
    assert (head (strip line) = Some c0) as Hc0 by (rewrite Hline; done).
    assert (isspace c0 = false) as Hsp
      by (by apply (strip_with_head_kept isspace line)).
    assert (c = c0) as -> by (by eapply strip_with_head_same in Hh).
    split; [done|]. intros ->. rewrite Hline in Hhash. simpl in Hhash.
    by destruct (k0' ++ EQ :: v0).
  - intros c. apply strip_with_last_kept.
  - intros Hh. apply strip_with_head_kept in Hh.
    by rewrite strip_one_char in Hh.
  - intros Hl. apply strip_with_last_kept in Hl.
    by rewrite strip_one_char in Hl.
Qed.

(** X5.  A variable the loader adds comes from a line of the file.  Its
    name is not empty, holds no separator, has no white space at either end
    and does not start with the comment mark; its value neither starts nor
    ends with a double quote. *)
Theorem added_entry_wellformed
    (file : option str) (env : gmap str str) (k v : str) :
  env !! k = None ->
  load_dotenv file env !! k = Some v ->
  (exists text line, file = Some text /\ line ∈ splitlines text
                     /\ line_entry line = Some (k, v))
  /\ k <> [] /\ (EQ ∉ k)
  /\ (forall c, head k = Some c -> isspace c = false /\ c <> HASH)
  /\ (forall c, last k = Some c -> isspace c = false)
  /\ head v <> Some DQ /\ last v <> Some DQ.
Proof.
  intros Hk. rewrite load_dotenv_lookup_env, Hk.
  intros Hin%first_value_elem_of.
  destruct file as [text|]; simpl in Hin; [|by apply elem_of_nil in Hin].
  apply list_elem_of_omap in Hin as (line & Hline & He).
  split; [by exists text, line|]. by apply (line_entry_wellformed line).
Qed.

Lemma added_entry_wellformed_witness :
  py "A" <> [] /\ (EQ ∉ py "A").
Proof.
  destruct (added_entry_wellformed
              (Some (py " A = " ++ [DQ; DQ] ++ py "x" ++ [DQ])) ∅
              (py "A") (py "x")) as (_ & H1 & H2 & _).
  - reflexivity.
  - vm_compute. reflexivity.
  - split; [exact H1 | exact H2].
Defined.

(** *** Writing a line and loading it *)

Lemma isspace_EQ : isspace EQ = false.
Proof. reflexivity. Qed.

Lemma blank_no_EQ (ws : str) :
  Forall (fun c => isspace c = true) ws -> EQ ∉ ws.
Proof.
  intros Hws Hin. rewrite Forall_forall in Hws.
  apply Hws in Hin. by rewrite isspace_EQ in Hin.
Qed.

(** The entry of a line written as a key, the separator and a value, with
    white space allowed around each: the key and the value themselves, when
    the key is a name the loader can add and the value has neither white
    space nor a quote character at its ends. *)
Lemma line_entry_written (ws1 key ws2 ws3 value ws4 : str) :
  Forall (fun c => isspace c = true) ws1 ->
  Forall (fun c => isspace c = true) ws2 ->
  Forall (fun c => isspace c = true) ws3 ->
  Forall (fun c => isspace c = true) ws4 ->
  key <> [] -> EQ ∉ key ->
  (forall c, head key = Some c -> isspace c = false /\ c <> HASH) ->
  (forall c, last key = Some c -> isspace c = false) ->
  (forall c, head value = Some c \/ last value = Some c ->
             isspace c = false /\ isquote c = false) ->
  line_entry (ws1 ++ key ++ ws2 ++ [EQ] ++ ws3 ++ value ++ ws4)
  = Some (key, value).
Proof.
  intros H1 H2 H3 H4 Hne Heq Hh Hl Hv.
  assert (exists v0, strip (ws1 ++ key ++ ws2 ++ [EQ] ++ ws3 ++ value ++ ws4)
                     = (key ++ ws2) ++ EQ :: v0
                     /\ strip v0 = value) as (v0 & Hraw & Hv0).
  { destruct (decide (value = [])) as [->|Hval].
    - exists []. split; [|done].
      replace (ws1 ++ key ++ ws2 ++ [EQ] ++ ws3 ++ [] ++ ws4)
        with (ws1 ++ ((key ++ ws2) ++ [EQ]) ++ (ws3 ++ ws4))
        by (by rewrite <- !app_assoc).
      apply (strip_with_middle isspace).
      + done.
      + by apply Forall_app.
      + intros c. destruct key as [|c0 key']; [done|]. simpl.
        intros [= <-]. by destruct (Hh c0 eq_refl).
      + intros c. rewrite last_snoc. by intros [= <-].
    - exists (ws3 ++ value). split.
      + replace (ws1 ++ key ++ ws2 ++ [EQ] ++ ws3 ++ value ++ ws4)
          with (ws1 ++ ((key ++ ws2) ++ EQ :: ws3 ++ value) ++ ws4)
          by (rewrite <- !app_assoc; simpl; by rewrite <- !app_assoc).
        apply (strip_with_middle isspace).
        * done.
        * done.
        * intros c. destruct key as [|c0 key']; [done|]. simpl.
          intros [= <-]. by destruct (Hh c0 eq_refl).
        * intros c Hc. eapply proj1, Hv. right.
          rewrite app_comm_cons, app_assoc, last_app in Hc.
          destruct (last value) eqn:E; [done|].
          by apply last_None in E.
      + rewrite <- (app_nil_r (ws3 ++ value)), <- app_assoc.
        apply (strip_with_middle isspace ws3 value []); try done.
        * intros c Hc. by destruct (Hv c (or_introl Hc)).
        * intros c Hc. by destruct (Hv c (or_intror Hc)). }
  assert (strip (key ++ ws2) = key) as Hkey.
  { apply (strip_with_middle isspace [] key ws2); try done.
    intros c Hc. by destruct (Hh c Hc). }
  unfold line_entry, split1. rewrite Hraw.
  rewrite partition_at_first
    by (rewrite not_elem_of_app; split; [done | by apply blank_no_EQ]).
  assert (contains EQ ((key ++ ws2) ++ EQ :: v0) = true) as ->.
  { apply contains_elem_of. rewrite elem_of_app, elem_of_cons. auto. }
  assert (startswith ((key ++ ws2) ++ EQ :: v0) [HASH] = false) as ->.
  { destruct key as [|c0 key']; [done|]. simpl.
    destruct (Hh c0 eq_refl) as [_ Hc0].
    apply N.eqb_neq in Hc0. by rewrite Hc0. }
  rewrite bool_decide_eq_false_2 by (by destruct key). simpl.
  rewrite Hkey, bool_decide_eq_false_2 by done.
  rewrite clean_value_plain; rewrite Hv0; [done|].
  intros c Hc. by destruct (Hv c Hc).
Qed.

(** X4.  A line written as a key, the separator and a value, with white
    space allowed around each, loads as that key with that value, when the
    key is absent, is not empty, holds no separator, has no white space at
    its ends and does not start with the comment mark, and the value has
    neither white space nor a quote character at its ends. *)
Theorem load_line_written
    (env : gmap str str) (ws1 key ws2 ws3 value ws4 : str) :
  Forall (fun c => isspace c = true) ws1 ->
  Forall (fun c => isspace c = true) ws2 ->
  Forall (fun c => isspace c = true) ws3 ->
  Forall (fun c => isspace c = true) ws4 ->
  key <> [] -> EQ ∉ key ->
  (forall c, head key = Some c -> isspace c = false /\ c <> HASH) ->
  (forall c, last key = Some c -> isspace c = false) ->
  (forall c, head value = Some c \/ last value = Some c ->
             isspace c = false /\ isquote c = false) ->
  env !! key = None ->
  load_line env (ws1 ++ key ++ ws2 ++ [EQ] ++ ws3 ++ value ++ ws4)
  = <[key := value]> env.
Proof.
  intros H1 H2 H3 H4 Hne Heq Hh Hl Hv Hk.
  rewrite load_line_entry, line_entry_written by done. by rewrite Hk.
Qed.

Lemma load_line_written_witness :
  load_line ∅ (py "  " ++ py "DATABASE_URL" ++ py " " ++ [EQ] ++ py " "
               ++ py "postgres://u:p@h/db?a=b" ++ py " ")
  = <[py "DATABASE_URL" := py "postgres://u:p@h/db?a=b"]> ∅.
Proof.
  apply (load_line_written ∅ (py "  ") (py "DATABASE_URL") (py " ") (py " ")
           (py "postgres://u:p@h/db?a=b") (py " ")).
  - repeat constructor.
  - repeat constructor.
  - repeat constructor.
  - repeat constructor.
  - vm_compute. discriminate.
  - intros Hin%list_elem_of_In. vm_compute in Hin.
    repeat (destruct Hin as [Hin|Hin]; [discriminate Hin|]). exact Hin.
  - intros c [= <-]. split; [reflexivity | vm_compute; discriminate].
  - intros c [= <-]. reflexivity.
  - intros c [[= <-]|[= <-]]; split; reflexivity.
  - reflexivity.
Defined.

(** * Further properties of the runner *)

Lemma final_lines_not_applied (dir : str) :
  py "DATABASE_URL is not set." <> py "Migrations applied."
  /\ py "migrations directory not found: " ++ dir <> py "Migrations applied."
  /\ py "No migration files found." <> py "Migrations applied.".
Proof.
  split_and!; intros H; vm_compute in H; discriminate.
Qed.

(** X6.  The status of a run is 0 or 1.  It is 0 exactly when the one call
    of commit has returned, and exactly when the run ends by printing the
    success line. *)
Theorem exit_status_reflects_commit (w : world) :
  ((main w).2 = 0%Z \/ (main w).2 = 1%Z)
  /\ ((main w).2 = 0%Z <-> commits (main w).1 = [Returned])
  /\ ((main w).2 = 0%Z
      <-> last (main w).1 = Some (Print (py "Migrations applied."))).
Proof.
  pose proof (main_has_shape w) as Hs.
  destruct (final_lines_not_applied (migrations_dir w)) as (N1 & N2 & N3).
  destruct (main w) as [t code]. simpl.
  inversion Hs as [Hf|url Hu Hne Hm|url listing Hu Hne Hm Hfs
                   |url listing t' exc Hu Hne Hm Hfs Ht
                   |url listing t' Hu Hne Hm Hfs Ht]; subst;
    (split; [auto|]).
  - split; split; first [done | by intros [= ?]].
  - split; split; first [done | by intros [= ?]].
  - split; split; first [done | by intros [= ?]].
  - rewrite commits_app, app_nil_r, last_snoc.
    split; split;
      first [ done
            | by destruct (try_commits Ht) as [-> | ->]
            | intros [= H]; by apply failed_not_applied in H ].
  - rewrite commits_app, app_nil_r, last_snoc, (try_commits Ht). done.
Qed.

(** X7.  A run prints one line for each statement it sends, and one
    more: the line that tells how the run ended. *)
Theorem one_line_per_statement (w : world) :
  length (prints (main w).1) = S (length (executes (main w).1)).
Proof.
  pose proof (main_has_shape w) as Hs.
  destruct (main w) as [t code]. simpl.
  inversion Hs as [Hf|url Hu Hne Hm|url listing Hu Hne Hm Hfs
                   |url listing t' exc Hu Hne Hm Hfs Ht
                   |url listing t' Hu Hne Hm Hfs Ht]; subst; try done;
    rewrite prints_app, executes_app, !length_app; simpl;
    (assert (length (prints t') = length (executes t')) as ->; [|lia]);
    clear Hs; destruct Ht; log_simpl;
    rewrite ?length_app, ?length_map; simpl;
    repeat match goal with
      | H : map read_text _ = map inr _ |- _ =>
          apply read_texts_length in H
      end; lia.
Qed.

(** X8.  A run connects at most once, and with the value [DATABASE_URL]
    has once the loader has run: the one of the process environment when
    it has one, and otherwise the first entry of the file for it. *)
Theorem connects_with_loaded_url (w : world) (url : str) :
  url ∈ connects (main w).1 ->
  connects (main w).1 = [url]
  /\ url <> []
  /\ getenv (load_dotenv (dotenv w) (environ w)) DATABASE_URL = Some url
  /\ (forall u, environ w !! DATABASE_URL = Some u -> url = u)
  /\ (environ w !! DATABASE_URL = None ->
      first_value DATABASE_URL (dotenv_entries (dotenv w)) = Some url).
Proof.
  intros Hin. pose proof (main_has_shape w) as Hs.
  destruct (main w) as [t code]. simpl in *.
  assert (forall u t', getenv (load_dotenv (dotenv w) (environ w)) DATABASE_URL
                       = Some u -> u <> [] ->
             connects t' = [u] -> url ∈ connects t' ->
             connects t' = [url] /\ url <> []
             /\ getenv (load_dotenv (dotenv w) (environ w)) DATABASE_URL
                = Some url
             /\ (forall u', environ w !! DATABASE_URL = Some u' -> url = u')
             /\ (environ w !! DATABASE_URL = None ->
                 first_value DATABASE_URL (dotenv_entries (dotenv w))
                 = Some url)) as Hgen.
  { intros u t' Hu Hne Hc Hin'. rewrite Hc in Hin'.
    apply list_elem_of_singleton in Hin' as ->.
    split_and!; try done.
    - intros u' Hu'. unfold getenv in Hu.
      rewrite load_dotenv_lookup_env, Hu' in Hu. congruence.
    - intros Hnone. unfold getenv in Hu.
      by rewrite load_dotenv_lookup_env, Hnone in Hu. }
  inversion Hs as [Hf|u Hu Hne Hm|u listing Hu Hne Hm Hfs
                   |u listing t' exc Hu Hne Hm Hfs Ht
                   |u listing t' Hu Hne Hm Hfs Ht]; subst;
    try (by apply elem_of_nil in Hin).
  - apply (Hgen u); try done.
    by rewrite connects_app, app_nil_r, (try_connects Ht).
  - apply (Hgen u); try done.
    by rewrite connects_app, app_nil_r, (try_connects Ht).
Qed.

Lemma connects_with_loaded_url_witness :
  let w := toy_world (<[DATABASE_URL := py "postgres://process"]> ∅)
             (Some (py "DATABASE_URL=postgres://file")) (Some two_files)
             (py "DROP") true in
  connects (main w).1 = [py "postgres://process"].
Proof.
  apply (connects_with_loaded_url
           (toy_world (<[DATABASE_URL := py "postgres://process"]> ∅)
              (Some (py "DATABASE_URL=postgres://file")) (Some two_files)
              (py "DROP") true) (py "postgres://process")).
  vm_compute. apply list_elem_of_here.
Defined.

(** X9.  When the migrations directory is missing the run attempts no
    connection, reads no file, and ends with status 1; when [DATABASE_URL]
    is set once the loader has run, its one line names the directory. *)
Theorem migrations_directory_missing (w : world) :
  migrations w = None ->
  connects (main w).1 = []
  /\ reads (main w).1 = []
  /\ (main w).2 = 1%Z
  /\ (falsy (getenv (load_dotenv (dotenv w) (environ w)) DATABASE_URL) = false ->
      main w = ([Print (py "migrations directory not found: "
                        ++ migrations_dir w)], 1%Z)).
Proof.
  intros Hm. unfold main. rewrite Hm. by destruct (falsy _).
Qed.

Lemma migrations_directory_missing_witness :
  main (toy_world ∅ (Some (py "DATABASE_URL=postgres://db")) None
          (py "DROP") true)
  = ([Print (py "migrations directory not found: /app/migrations")], 1%Z).
Proof.
  apply (migrations_directory_missing
           (toy_world ∅ (Some (py "DATABASE_URL=postgres://db")) None
              (py "DROP") true)); reflexivity.
Defined.

(** *** What is read, what is sent, and when commit is called *)

Lemma files_done_execute (fs : list entry) (sqls : list str) q o :
  map read_text fs = map inr sqls ->
  Call (Execute q) o ∈ files_done fs sqls ->
  exists pre post f,
    f ∈ fs /\ read_text f = inr q
    /\ files_done fs sqls
       = pre ++ [ Call (ReadText (name f)) Returned; Print (running (name f));
                  Call (Execute q) o ] ++ post.
Proof.
  revert sqls. induction fs as [|f fs IH]; intros [|sql sqls]; simpl;
    try (by intros _ ?%elem_of_nil).
  intros [= Hf Hs]. rewrite !elem_of_cons.
  intros [H|[H|[H|H]]]; try discriminate H.
  - injection H as -> ->. exists [], (files_done fs sqls), f.
    split; [apply list_elem_of_here|]. done.
  - destruct (IH _ Hs H) as (pre & post & g & Hg & Hq & Heq).
    exists (file_done f sql ++ pre), post, g.
    split; [by apply list_elem_of_further|]. split; [done|].
    simpl. by rewrite Heq.
Qed.

Lemma try_execute url fs t r q o :
  try_shape url fs t r ->
  Call (Execute q) o ∈ t ->
  exists pre post f,
    f ∈ fs /\ read_text f = inr q
    /\ t = pre ++ [ Call (ReadText (name f)) Returned; Print (running (name f));
                    Call (Execute q) o ] ++ post.
Proof.
  assert (forall (before : list entry) sqls (tail : list event),
             map read_text before = map inr sqls ->
             Call (Execute q) o ∈ files_done before sqls ->
             exists pre post f,
               f ∈ before /\ read_text f = inr q
               /\ [Call (Connect url) Returned; Call Cursor Returned]
                    ++ files_done before sqls ++ tail
                  = pre ++ [ Call (ReadText (name f)) Returned;
                             Print (running (name f));
                             Call (Execute q) o ] ++ post) as Hdone.
  { intros before sqls tail Hs Hin.
    destruct (files_done_execute _ _ _ _ Hs Hin)
      as (pre & post & f & Hf & Hq & ->).
    exists ([Call (Connect url) Returned; Call Cursor Returned] ++ pre),
      (post ++ tail), f.
    split; [done|]. split; [done|]. by rewrite <- !app_assoc. }
  destruct 1 as [e|e|e before f after sqls Hfs Hs Hf
                |e before f after sqls sql Hfs Hs Hf
                |e before f after sqls sql Hfs Hs Hf|e sqls Hs|sqls Hs];
    rewrite ?elem_of_app, ?elem_of_cons, ?elem_of_nil;
    intros Hor; decompose [or] Hor; clear Hor; try discriminate; try done.
  - edestruct (Hdone before sqls) as (pre & post & g & Hg & Hq & Heq);
      [exact Hs | eassumption |].
    exists pre, post, g. subst fs. rewrite elem_of_app.
    split; [auto|]. split; [done | exact Heq].
  - edestruct (Hdone before sqls) as (pre & post & g & Hg & Hq & Heq);
      [exact Hs | eassumption |].
    exists pre, post, g. subst fs. rewrite elem_of_app.
    split; [auto|]. split; [done | exact Heq].
  - edestruct (Hdone before sqls) as (pre & post & g & Hg & Hq & Heq);
      [exact Hs | eassumption |].
    exists pre, post, g. subst fs. rewrite elem_of_app.
    split; [auto|]. split; [done | exact Heq].
  - match goal with H : Call _ _ = Call _ _ |- _ => injection H as -> -> end.
    exists ([Call (Connect url) Returned; Call Cursor Returned]
              ++ files_done before sqls), [ExitCursor true; ExitConn true], f.
    subst fs. rewrite elem_of_app, elem_of_cons.
    split; [auto|]. split; [done|]. by rewrite <- !app_assoc.
  - edestruct (Hdone fs sqls) as (pre & post & g & Hg & Hq & Heq);
      [exact Hs | eassumption |].
    exists pre, post, g. split; [done|]. split; [done | exact Heq].
  - edestruct (Hdone fs sqls) as (pre & post & g & Hg & Hq & Heq);
      [exact Hs | eassumption |].
    exists pre, post, g. split; [done|]. split; [done | exact Heq].
Qed.

Lemma elem_of_sorted_glob (listing : list entry) (f : entry) :
  f ∈ sorted path_ltb (glob_sql listing) ->
  f ∈ listing /\ endswith (name f) (py ".sql") = true.
Proof.
  rewrite (sorted_Permutation path_ltb (glob_sql listing)).
  unfold glob_sql. intros H%list_elem_of_In%filter_In.
  by rewrite list_elem_of_In.
Qed.

(** X10.  A statement is sent only as the text of an entry of the
    migrations directory whose name ends in dot-sql, right after that text
    was read and the progress line of the file was printed. *)
Theorem execute_follows_progress_line (w : world) (q : str) (o : outcome) :
  Call (Execute q) o ∈ (main w).1 ->
  exists listing f pre post,
    migrations w = Some listing
    /\ f ∈ listing
    /\ endswith (name f) (py ".sql") = true
    /\ read_text f = inr q
    /\ (main w).1
       = pre ++ [ Call (ReadText (name f)) Returned; Print (running (name f));
                  Call (Execute q) o ] ++ post.
Proof.
  intros Hin. pose proof (main_has_shape w) as Hs.
  destruct (main w) as [t code]. simpl in *.
  inversion Hs as [Hf|url Hu Hne Hm|url listing Hu Hne Hm Hfs
                   |url listing t' exc Hu Hne Hm Hfs Ht
                   |url listing t' Hu Hne Hm Hfs Ht]; subst;
    try (by apply list_elem_of_singleton in Hin);
    apply elem_of_app in Hin as [Hin|Hin%list_elem_of_singleton]; try done;
    destruct (try_execute _ _ _ _ _ _ Ht Hin)
      as (pre & post & f & [Hf Hsql]%elem_of_sorted_glob & Hq & ->).
  - exists listing, f, pre, (post ++ [Print (py "Migration failed: "
                                               ++ exn_msg exc)]).
    split_and!; try done. by rewrite <- !app_assoc.
  - exists listing, f, pre, (post ++ [Print (py "Migrations applied.")]).
    split_and!; try done. by rewrite <- !app_assoc.
Qed.

Lemma execute_follows_progress_line_witness :
  let w := toy_world ∅ (Some (py "DATABASE_URL=postgres://db"))
             (Some two_files) (py "CREATE INDEX i") true in
  exists listing f pre post,
    migrations w = Some listing
    /\ f ∈ listing
    /\ endswith (name f) (py ".sql") = true
    /\ read_text f = inr (py "CREATE INDEX i")
    /\ (main w).1
       = pre ++ [ Call (ReadText (name f)) Returned; Print (running (name f));
                  Call (Execute (py "CREATE INDEX i"))
                    (Raised (Exception (py "syntax error"))) ] ++ post.
Proof.
  apply (execute_follows_progress_line
           (toy_world ∅ (Some (py "DATABASE_URL=postgres://db"))
              (Some two_files) (py "CREATE INDEX i") true)).
  vm_compute. do 7 apply list_elem_of_further. apply list_elem_of_here.
Defined.

Lemma try_commit_after_all url fs t r o :
  try_shape url fs t r ->
  o ∈ commits t ->
  map read_text fs = map inr (texts fs)
  /\ reads t = map name fs
  /\ executes t = map (fun q => (q, Returned)) (texts fs).
Proof.
  destruct 1 as [e|e|e before f after sqls Hfs Hs Hf
                |e before f after sqls sql Hfs Hs Hf
                |e before f after sqls sql Hfs Hs Hf|e sqls Hs|sqls Hs];
    intros Hin; revert Hin; log_simpl;
    match goal with
    | H : _ ∈ _ |- _ => simpl in H; try (by apply elem_of_nil in H)
    end;
    match goal with
    | H : map read_text _ = map inr _ |- _ =>
        rewrite (texts_read _ _ H), ?app_nil_r
    end; done.
Qed.

(** X11.  Commit is called only after every file found was read and its
    text executed without an exception: never after a file that failed,
    and never with a file left out. *)
Theorem commit_only_after_all_files (w : world) (o : outcome) :
  o ∈ commits (main w).1 ->
  exists listing,
    migrations w = Some listing
    /\ let files := sorted path_ltb (glob_sql listing) in
       map read_text files = map inr (texts files)
       /\ reads (main w).1 = map name files
       /\ executes (main w).1 = map (fun q => (q, Returned)) (texts files).
Proof.
  intros Hin. pose proof (main_has_shape w) as Hs.
  destruct (main w) as [t code]. simpl in *.
  inversion Hs as [Hf|url Hu Hne Hm|url listing Hu Hne Hm Hfs
                   |url listing t' exc Hu Hne Hm Hfs Ht
                   |url listing t' Hu Hne Hm Hfs Ht]; subst;
    try (by apply elem_of_nil in Hin);
    rewrite commits_app, app_nil_r in Hin;
    destruct (try_commit_after_all _ _ _ _ _ Ht Hin) as (Hr & Hrd & Hex);
    exists listing; rewrite reads_app, executes_app, !app_nil_r; done.
Qed.

Lemma commit_only_after_all_files_witness :
  let w := toy_world ∅ (Some (py "DATABASE_URL=postgres://db"))
             (Some two_files) (py "DROP") false in
  reads (main w).1 = [py "001_init.sql"; py "002_add_index.sql"]
  /\ executes (main w).1
     = [(py "CREATE TABLE t", Returned); (py "CREATE INDEX i", Returned)].
Proof.
  destruct (commit_only_after_all_files
              (toy_world ∅ (Some (py "DATABASE_URL=postgres://db"))
                 (Some two_files) (py "DROP") false)
              (Raised (Exception (py "commit failed"))))
    as (listing & Hm & _ & Hr & He).
  - vm_compute. apply list_elem_of_here.
  - injection Hm as <-. split; [exact Hr | exact He].
Defined.

(** X12.  A file the run reads is an entry of the migrations directory
    whose name ends in dot-sql; with the names of the directory distinct,
    no file is read twice. *)
Theorem reads_only_sql_files (w : world) (n : str) :
  n ∈ reads (main w).1 ->
  exists listing f,
    migrations w = Some listing
    /\ f ∈ listing /\ name f = n
    /\ endswith n (py ".sql") = true
    /\ (NoDup (map name listing) -> NoDup (reads (main w).1)).
Proof.
  intros Hin. pose proof (main_has_shape w) as Hs.
  destruct (main w) as [t code]. simpl in *.
  assert (forall url listing t' r,
             try_shape url (sorted path_ltb (glob_sql listing)) t' r ->
             n ∈ reads t' ->
             (exists f, f ∈ listing /\ name f = n
                        /\ endswith n (py ".sql") = true)
             /\ (NoDup (map name listing) -> NoDup (reads t'))) as Hgen.
  { intros url listing t' r Ht Hn. destruct (try_reads Ht) as [Hpre _].
    split.
    - eapply elem_of_prefix in Hn; [|exact Hpre].
      apply list_elem_of_In, in_map_iff in Hn as (f & <- & Hf).
      apply list_elem_of_In, elem_of_sorted_glob in Hf as [Hf Hsql]. eauto.
    - intros Hnd. destruct Hpre as [rest Hrest].
      assert (NoDup (map name (sorted path_ltb (glob_sql listing)))) as Hnd'.
      { eapply (NoDup_Permutation_proper _ _ (sorted_names_Permutation _)).
        by apply glob_sql_names_NoDup. }
      rewrite Hrest in Hnd'. by apply NoDup_app in Hnd' as [? _]. }
  inversion Hs as [Hf|url Hu Hne Hm|url listing Hu Hne Hm Hfs
                   |url listing t' exc Hu Hne Hm Hfs Ht
                   |url listing t' Hu Hne Hm Hfs Ht]; subst;
    try (by apply elem_of_nil in Hin);
    rewrite reads_app, app_nil_r in Hin |- *;
    destruct (Hgen _ _ _ _ Ht Hin) as [(f & Hf & Hn & Hsql) Hnd];
    by exists listing, f.
Qed.

Lemma reads_only_sql_files_witness :
  let w := toy_world ∅ (Some (py "DATABASE_URL=postgres://db"))
             (Some two_files) (py "DROP") true in
  exists listing f,
    migrations w = Some listing
    /\ f ∈ listing /\ name f = py "002_add_index.sql"
    /\ endswith (py "002_add_index.sql") (py ".sql") = true
    /\ (NoDup (map name listing) -> NoDup (reads (main w).1)).
Proof.
  apply (reads_only_sql_files
           (toy_world ∅ (Some (py "DATABASE_URL=postgres://db"))
              (Some two_files) (py "DROP") true)).
  vm_compute. apply list_elem_of_further, list_elem_of_here.
Defined.

(** *** Leaving the scopes *)

Lemma conn_exits_app t1 t2 :
  conn_exits (t1 ++ t2) = conn_exits t1 ++ conn_exits t2.
Proof. apply omap_app. Qed.

Lemma cursor_exits_app t1 t2 :
  cursor_exits (t1 ++ t2) = cursor_exits t1 ++ cursor_exits t2.
Proof. apply omap_app. Qed.

Lemma files_done_exits fs sqls :
  conn_exits (files_done fs sqls) = [] /\ cursor_exits (files_done fs sqls) = []
  /\ (forall c, Call c Returned ∈ files_done fs sqls ->
                 c <> Cursor /\ forall u, c <> Connect u).
Proof.
  revert sqls. induction fs as [|f fs IH]; intros [|q qs]; simpl;
    try (split_and!; [done|done|by intros c ?%elem_of_nil]).
  destruct (IH qs) as (H1 & H2 & H3). split_and!; try done.
  intros c. rewrite !elem_of_cons.
  intros [[= ->]|[[=]|[[= ->]|H]]]; try done. by apply H3.
Qed.

Lemma try_exits url fs t r :
  try_shape url fs t r ->
  (forall u, Call (Connect u) Returned ∈ t ->
             conn_exits t = [match r with inl _ => true | inr _ => false end])
  /\ (Call Cursor Returned ∈ t ->
       exists b, cursor_exits t = [b]
                 /\ (b = false <-> (commits t <> []))).
Proof.
  destruct 1 as [e|e|e before f after sqls Hfs Hs Hf
                |e before f after sqls sql Hfs Hs Hf
                |e before f after sqls sql Hfs Hs Hf|e sqls Hs|sqls Hs];
    rewrite ?conn_exits_app, ?cursor_exits_app, ?commits_app,
      ?files_done_commits;
    repeat match goal with
      | |- context [files_done ?a ?b] =>
          destruct (files_done_exits a b) as (-> & -> & _)
      end; simpl.
  - split; [intros u [[=]|[]%elem_of_nil]%elem_of_cons|].
    by intros [[=]|[]%elem_of_nil]%elem_of_cons.
  - split; [done|].
    rewrite !elem_of_cons. intros [[=]|[[=]|[[=]|[]%elem_of_nil]]].
  - split; [done|]. intros _. exists true. split; [done|]. by split.
  - split; [done|]. intros _. exists true. split; [done|]. by split.
  - split; [done|]. intros _. exists true. split; [done|]. by split.
  - split; [done|]. intros _. exists false. split; [done|]. by split.
  - split; [done|]. intros _. exists false. split; [done|]. by split.
Qed.

(** X13.  A connection that was opened is left once, by an exception
    exactly when the status is 1; a cursor that was opened is left once,
    and commit is called exactly when it was left without an exception. *)
Theorem opened_scopes_are_left (w : world) :
  (forall u, Call (Connect u) Returned ∈ (main w).1 ->
             exists b, conn_exits (main w).1 = [b]
                       /\ (b = true <-> (main w).2 = 1%Z))
  /\ (Call Cursor Returned ∈ (main w).1 ->
       exists b, cursor_exits (main w).1 = [b]
                 /\ (b = false <-> commits (main w).1 <> [])).
Proof.
  pose proof (main_has_shape w) as Hs.
  destruct (main w) as [t code]. simpl.
  inversion Hs as [Hf|url Hu Hne Hm|url listing Hu Hne Hm Hfs
                   |url listing t' exc Hu Hne Hm Hfs Ht
                   |url listing t' Hu Hne Hm Hfs Ht]; subst;
    try (split; [intros u|]; by intros [=]%list_elem_of_singleton);
    destruct (try_exits _ _ _ _ Ht) as [Hconn Hcur];
    rewrite conn_exits_app, cursor_exits_app, commits_app, !app_nil_r;
    (split; [intros u|];
     (intros [Hin|[=]%list_elem_of_singleton]%elem_of_app)).
  - rewrite (Hconn u Hin). by exists true.
  - by apply Hcur.
  - rewrite (Hconn u Hin). exists false. split; [done|]. by split.
  - by apply Hcur.
Qed.

